(** * money.Currency: fixed-point currency values of corestoreio/csfw

    A shallow embedding of the [money] package (currency.go): the scaled
    [int64] amount, the overflow-checked operators, the guard-digit rounding
    helper [rnd], the Swedish rounding switch and the self-referential
    option functions.

    Conventions of the embedding:
    - [int64] is a [Z] together with its wrap-around [Int64.wrap]; Go's
      [int] is taken at its 64-bit width (amd64, arm64), so that the
      conversions [int64(g)] and [int(c.guard)] are the identity;
    - [float64] is IEEE 754 binary64, as [spec_float] at precision 53 and
      maximal exponent 1024, every operation rounded to nearest even on its
      own (no fused multiply-add);
    - the calls to the logger ([log.Error], [log.Trace]) leave no trace in a
      [Currency] and are not part of the model; [log.Fatal] ends the program
      and is the [None] of the option functions;
    - a division of integers by zero panics: the [None] of [Geti], [Dec],
      [Mul] and [Mulf];
    - [Pow] (through [math.Pow]) and the printing methods [Localize],
      [String], [Number] and [NumberByte] (through the formatter) are left
      out. *)

From Stdlib Require Import ZArith Bool List Lia.
From Stdlib Require Import Floats.SpecFloat.
Import ListNotations.

Local Open Scope Z_scope.

(** ** int64 *)

Module Int64.

Definition min_int64 : Z := - 2 ^ 63.
Definition max_int64 : Z := 2 ^ 63 - 1.

Definition in_range (z : Z) : Prop := min_int64 <= z <= max_int64.

Definition in_rangeb (z : Z) : bool := (min_int64 <=? z) && (z <=? max_int64).

(** The value an [int64] register holds after an operation whose exact
    result is [z]. *)
Definition wrap (z : Z) : Z := (z + 2 ^ 63) mod 2 ^ 64 - 2 ^ 63.

Definition add (x y : Z) : Z := wrap (x + y).
Definition sub (x y : Z) : Z := wrap (x - y).
Definition mul (x y : Z) : Z := wrap (x * y).

(** [x / y] and [x % y] of Go truncate toward zero and panic on a zero
    divisor; [MinInt64 / -1] wraps. *)
Definition quo (x y : Z) : option Z :=
  if y =? 0 then None else Some (wrap (Z.quot x y)).
Definition rem (x y : Z) : option Z :=
  if y =? 0 then None else Some (wrap (Z.rem x y)).

(** The sign-bit test of [Add]: [(r^a)&(r^b) < 0]. *)
Definition add_overflows (a b : Z) : bool :=
  let r := add a b in
  Z.land (Z.lxor r a) (Z.lxor r b) <? 0.

(** The sign-bit test of [Sub]: [(r^a)&^(r^b) < 0]. *)
Definition sub_overflows (a b : Z) : bool :=
  let r := sub a b in
  Z.ldiff (Z.lxor r a) (Z.lxor r b) <? 0.

End Int64.

(** ** float64 *)

Module F64.

Definition float64 : Type := spec_float.

Definition prec : Z := 53.
Definition emax : Z := 1024.

Definition add : float64 -> float64 -> float64 := SFadd prec emax.
Definition sub : float64 -> float64 -> float64 := SFsub prec emax.
Definition mul : float64 -> float64 -> float64 := SFmul prec emax.
Definition div : float64 -> float64 -> float64 := SFdiv prec emax.
Definition ltb : float64 -> float64 -> bool := SFltb.
Definition leb : float64 -> float64 -> bool := SFleb.

(** [float64(i)] for an integer [i]. *)
Definition of_int (i : Z) : float64 := binary_normalize prec emax i 0 false.

(** The float of value [m * 2^e]; the decimal constants of the source
    that are dyadic ([.5]) are written with it. *)
Definition dyadic (m e : Z) : float64 := binary_normalize prec emax m e false.

(** The integer part of a finite float, toward zero. *)
Definition trunc (x : float64) : option Z :=
  match x with
  | S754_zero _ => Some 0
  | S754_finite s m e =>
      let a := Z.shiftl (Zpos m) e in
      Some (if s then - a else a)
  | S754_infinity _ | S754_nan => None
  end.

(** [int64(x)]. Go leaves the result open when the integer part does not
    fit (NaN, infinities, magnitudes from [2^63] on); the amd64
    instruction answers [MinInt64] there, which is what is modelled. *)
Definition to_int64 (x : float64) : Z :=
  match trunc x with
  | Some z => if Int64.in_rangeb z then z else Int64.min_int64
  | None => Int64.min_int64
  end.

(** [math.Floor]: the zeros, the infinities and NaN are returned as they
    are. *)
Definition Floor (x : float64) : float64 :=
  match x with
  | S754_finite s m e =>
      if 0 <=? e then x
      else
        let a := if s then Zneg m else Zpos m in
        binary_normalize prec emax (Z.shiftl a e) 0 s
  | _ => x
  end.

End F64.

(** ** math.Log

    [Precision] takes [int64(math.Log(float64(p64)))]. [math.Log] belongs
    to Go's library: the function [log] of math/log.go, which the amd64
    assembly follows step by step, is the logarithm of FreeBSD's e_log.c.
    It is written out here in binary64, operation by operation, with its
    constants given by their bit patterns. *)

Module Ln.

(** The float of an IEEE 754 bit pattern. *)
Definition of_bits (b : Z) : F64.float64 :=
  let s := Z.testbit b 63 in
  let ex := Z.land (Z.shiftr b 52) 2047 in
  let fr := Z.land b (2 ^ 52 - 1) in
  if ex =? 2047 then
    if fr =? 0 then S754_infinity s else S754_nan
  else if ex =? 0 then
    match fr with
    | Zpos mx => S754_finite s mx (-1074)
    | _ => S754_zero s
    end
  else
    match fr + 2 ^ 52 with
    | Zpos mx => S754_finite s mx (ex - 1075)
    | _ => S754_nan
    end.

Definition Ln2Hi : F64.float64 := of_bits 0x3fe62e42fee00000.
Definition Ln2Lo : F64.float64 := of_bits 0x3dea39ef35793c76.
Definition L1 : F64.float64 := of_bits 0x3FE5555555555593.
Definition L2 : F64.float64 := of_bits 0x3FD999999997FA04.
Definition L3 : F64.float64 := of_bits 0x3FD2492494229359.
Definition L4 : F64.float64 := of_bits 0x3FCC71C51D8E78AF.
Definition L5 : F64.float64 := of_bits 0x3FC7466496CB03DE.
Definition L6 : F64.float64 := of_bits 0x3FC39A09D078C69F.
Definition L7 : F64.float64 := of_bits 0x3FC2F112DF3E5244.

(** The constant [Sqrt2/2] as a [float64]. *)
Definition Sqrt2_half : F64.float64 := of_bits 0x3FE6A09E667F3BCD.

(** [math.Log]. The special cases come first: NaN and plus infinity are
    returned, a negative argument gives NaN and a zero minus infinity. Then
    the argument is reduced to [f1 * 2^ki] with [f1] from [Sqrt2/2] to
    [Sqrt2], and the logarithm of [f1] is computed from [f = f1 - 1]. *)
Definition Log (x : F64.float64) : F64.float64 :=
  match x with
  | S754_nan | S754_infinity false => x
  | S754_infinity true | S754_finite true _ _ => S754_nan
  | S754_zero _ => S754_infinity true
  | S754_finite false _ _ =>
      let (f1, ki) := SFfrexp F64.prec F64.emax x in
      let (f1, ki) :=
        if F64.ltb f1 Sqrt2_half then (F64.mul f1 (F64.of_int 2), ki - 1)
        else (f1, ki) in
      let f := F64.sub f1 (F64.of_int 1) in
      let k := F64.of_int ki in
      let s := F64.div f (F64.add (F64.of_int 2) f) in
      let s2 := F64.mul s s in
      let s4 := F64.mul s2 s2 in
      let t1 :=
        F64.mul s2
          (F64.add L1
             (F64.mul s4 (F64.add L3 (F64.mul s4 (F64.add L5 (F64.mul s4 L7)))))) in
      let t2 :=
        F64.mul s4 (F64.add L2 (F64.mul s4 (F64.add L4 (F64.mul s4 L6)))) in
      let R := F64.add t1 t2 in
      let hfsq := F64.mul (F64.mul (F64.dyadic 1 (-1)) f) f in
      F64.sub (F64.mul k Ln2Hi)
              (F64.sub
                 (F64.sub hfsq
                          (F64.add (F64.mul s (F64.add hfsq R)) (F64.mul k Ln2Lo)))
                 f)
  end.

(** [int64(math.Log(float64(p)))]. *)
Definition Log_int64 (p : Z) : Z := F64.to_int64 (Log (F64.of_int p)).

(** *** The real logarithm, for comparison

    The integer part of the real natural logarithm of an integer, from a
    table of the integer parts of the powers of [e]. [Log_int64] is not
    defined from it: the two differ where the real logarithm is within
    half a unit in the last place below an integer, which the float
    logarithm rounds up to that integer ([LnFacts]). *)

(** [e_num / e_den] is the partial sum of [1/i!] up to [i = 30]; [e] lies
    strictly between it and [(e_num + 1) / e_den]. *)
Fixpoint fact (n : nat) : Z :=
  match n with
  | O => 1
  | S k => Z.of_nat n * fact k
  end.

Definition e_den : Z := fact 30.

Definition e_num : Z :=
  fold_right (fun i acc => acc + e_den / fact i) 0 (seq 0 31).

(** Every [t] of the list is the integer part of the power of [e] at its
    place, [t <= e^k < t + 1], checked on the two bounds of [e] without a
    division: [lo], [hi] and [den] are the [k]-th powers of [e_num],
    [e_num + 1] and [e_den] for the head of the list. *)
Fixpoint are_exp_floors (ts : list Z) (lo hi den : Z) : bool :=
  match ts with
  | [] => true
  | t :: rest =>
      (t * den <=? lo) && (hi <? (t + 1) * den) &&
      are_exp_floors rest (lo * e_num) (hi * (e_num + 1)) (den * e_den)
  end.

(** The integer parts of [e^1] to [e^43] ([LnFacts.exp_floors_exact]). *)
Definition exp_floors : list Z :=
  [2; 7; 20; 54; 148; 403; 1096; 2980; 8103; 22026; 59874; 162754; 442413;
   1202604; 3269017; 8886110; 24154952; 65659969; 178482300; 485165195;
   1318815734; 3584912846; 9744803446; 26489122129; 72004899337;
   195729609428; 532048240601; 1446257064291; 3931334297144; 10686474581524;
   29048849665247; 78962960182680; 214643579785916; 583461742527454;
   1586013452313430; 4311231547115195; 11719142372802611; 31855931757113756;
   86593400423993746; 235385266837019985; 639843493530054949;
   1739274941520501047; 4727839468229346561].

(** The integer part of [ln n] for an integer [n >= 1]: the number of
    [k >= 1] with [e^k < n], that is, with the integer part of [e^k] below
    [n]. *)
Definition ln_floor (n : Z) : Z :=
  Z.of_nat (length (filter (fun t => t <? n) exp_floors)).

End Ln.

(** ** The Currency type and its methods *)

Import F64.

(** [Interval] is a [uint8]; the constants count up from [Interval000]. *)
Definition Interval_t : Type := Z.

Definition Interval000 : Interval_t := 0.
Definition Interval005 : Interval_t := 1.
Definition Interval010 : Interval_t := 2.
Definition Interval015 : Interval_t := 3.
Definition Interval025 : Interval_t := 4.
Definition Interval050 : Interval_t := 5.
Definition Interval100 : Interval_t := 6.
Definition interval999 : Interval_t := 7.

(** [RoundTo = .5] and [RoundToN = RoundTo * -1]. *)
Definition RoundTo : float64 := dyadic 1 (-1).
Definition RoundToN : float64 := mul RoundTo (of_int (-1)).

(** [rnd]: [r] is the integer result, [trunc] the remainder the conversion
    cut off. *)
Definition rnd (r : Z) (trunc : float64) : Z :=
  if ltb (of_int 0) trunc then
    if leb RoundTo trunc then Int64.add r 1 else r
  else
    if ltb trunc RoundToN then Int64.sub r 1 else r.

(** [Round]: [math.Floor(f + .5)]. *)
Definition Round (f : float64) : float64 := Floor (add f (dyadic 1 (-1))).

(** The interfaces of the collaborators ([i18n.CurrencyFormatter] and the
    two JSON codecs) and the package-level variables [guard], [guardf], [dp],
    [dpf], [DefaultFormat], [DefaultJSONEncode], [DefaultJSONDecode] with the
    results of [NewJSONEncoder()] and [NewJSONDecoder()]. They are declared in
    files of the package that this development does not have, and are the
    parameters of everything below. *)
Class Package : Type := {
  CurrencyFormatter : Type;
  JSONMarshaller : Type;
  JSONUnmarshaller : Type;
  pkg_guard : Z;
  pkg_guardf : float64;
  pkg_dp : Z;
  pkg_dpf : float64;
  DefaultFormat : CurrencyFormatter;
  DefaultJSONEncode : JSONMarshaller;
  DefaultJSONDecode : JSONUnmarshaller;
  NewJSONEncoder : JSONMarshaller;
  NewJSONDecoder : JSONUnmarshaller
}.

Section Money.

Context {P : Package}.

(** An interface value of Go may be nil: the [None] of the fields [fmt],
    [jm] and [jum]. *)
Record Currency : Type := mkCurrency {
  m : Z;
  fmt : option CurrencyFormatter;
  Valid : bool;
  Interval : Interval_t;
  jm : option JSONMarshaller;
  jum : option JSONUnmarshaller;
  guard : Z;
  guardf : float64;
  dp : Z;
  dpf : float64;
  bufC : list Byte.byte
}.

Definition set_m (c : Currency) (x : Z) : Currency :=
  mkCurrency x (fmt c) (Valid c) (Interval c) (jm c) (jum c)
             (guard c) (guardf c) (dp c) (dpf c) (bufC c).

Definition set_Valid (c : Currency) (b : bool) : Currency :=
  mkCurrency (m c) (fmt c) b (Interval c) (jm c) (jum c)
             (guard c) (guardf c) (dp c) (dpf c) (bufC c).

Definition set_Interval (c : Currency) (i : Interval_t) : Currency :=
  mkCurrency (m c) (fmt c) (Valid c) i (jm c) (jum c)
             (guard c) (guardf c) (dp c) (dpf c) (bufC c).

Definition set_guard (c : Currency) (g : Z) (gf : float64) : Currency :=
  mkCurrency (m c) (fmt c) (Valid c) (Interval c) (jm c) (jum c)
             g gf (dp c) (dpf c) (bufC c).

Definition set_dp (c : Currency) (p : Z) (pf : float64) : Currency :=
  mkCurrency (m c) (fmt c) (Valid c) (Interval c) (jm c) (jum c)
             (guard c) (guardf c) p pf (bufC c).

Definition set_fmt (c : Currency) (f : option CurrencyFormatter) : Currency :=
  mkCurrency (m c) f (Valid c) (Interval c) (jm c) (jum c)
             (guard c) (guardf c) (dp c) (dpf c) (bufC c).

Definition set_jm (c : Currency) (j : option JSONMarshaller) : Currency :=
  mkCurrency (m c) (fmt c) (Valid c) (Interval c) j (jum c)
             (guard c) (guardf c) (dp c) (dpf c) (bufC c).

Definition set_jum (c : Currency) (j : option JSONUnmarshaller) : Currency :=
  mkCurrency (m c) (fmt c) (Valid c) (Interval c) (jm c) j
             (guard c) (guardf c) (dp c) (dpf c) (bufC c).

(** *** Option functions

    An [OptionFunc] takes a pointer to a [Currency] and returns an
    [OptionFunc]. Each of the six
    constructors of the package checks its argument and returns a closure
    over the checked value; a closure is represented by its constructor and
    the value it captured, and [call] runs its body. *)
Inductive OptionFunc : Type :=
| SwedishFn (i : Interval_t)
| GuardFn (g : Z)
| PrecisionFn (p64 : Z)
| FormatFn (f : CurrencyFormatter)
| JSONMarshalFn (j : JSONMarshaller)
| JSONUnmarshalFn (j : JSONUnmarshaller).

Definition Swedish (i : Interval_t) : OptionFunc :=
  SwedishFn (if interval999 <=? i then Interval000 else i).

Definition Guard (g : Z) : OptionFunc :=
  GuardFn (if g =? 0 then 1 else g).

Definition Precision (p : Z) : OptionFunc :=
  let p64 := p in
  let l := Ln.Log_int64 p64 in
  let p64 := if negb (p64 =? 0) && negb (Z.rem l 2 =? 0) then pkg_dp else p64 in
  let p64 := if p64 =? 0 then 1 else p64 in
  PrecisionFn p64.

(** [Format(nil)] ends in [log.Fatal]. *)
Definition Format (f : option CurrencyFormatter) : option OptionFunc :=
  match f with
  | None => None
  | Some f => Some (FormatFn f)
  end.

Definition JSONMarshal (j : option JSONMarshaller) : OptionFunc :=
  JSONMarshalFn (match j with None => NewJSONEncoder | Some j => j end).

Definition JSONUnmarshal (j : option JSONUnmarshaller) : OptionFunc :=
  JSONUnmarshalFn (match j with None => NewJSONDecoder | Some j => j end).

(** The body of the closure: the field is set and the constructor is
    called again on the previous value, which is read before the write. *)
Definition call (o : OptionFunc) (c : Currency) : option (Currency * OptionFunc) :=
  match o with
  | SwedishFn i =>
      let previous := Interval c in
      Some (set_Interval c i, Swedish previous)
  | GuardFn g =>
      let previous := guard c in
      Some (set_guard c g (of_int g), Guard previous)
  | PrecisionFn p64 =>
      let previous := dp c in
      Some (set_dp c p64 (of_int p64), Precision previous)
  | FormatFn f =>
      let previous := fmt c in
      match Format previous with
      | Some inverse => Some (set_fmt c (Some f), inverse)
      | None => None
      end
  | JSONMarshalFn j =>
      let previous := jm c in
      Some (set_jm c (Some j), JSONMarshal previous)
  | JSONUnmarshalFn j =>
      let previous := jum c in
      Some (set_jum c (Some j), JSONUnmarshal previous)
  end.

(** [Option]: the options are applied in order, a nil one is skipped, and
    the result of the last one applied is returned. *)
Fixpoint Option_from (previous : option OptionFunc)
         (opts : list (option OptionFunc)) (c : Currency)
  : option (Currency * option OptionFunc) :=
  match opts with
  | [] => Some (c, previous)
  | None :: rest => Option_from previous rest c
  | Some o :: rest =>
      match call o c with
      | Some (c', inverse) => Option_from (Some inverse) rest c'
      | None => None
      end
  end.

Definition Option (c : Currency) (opts : list (option OptionFunc))
  : option (Currency * option OptionFunc) :=
  Option_from None opts c.

(** The composite literal [New] starts from. *)
Definition New_literal : Currency :=
  {| m := 0;
     fmt := Some DefaultFormat;
     Valid := false;
     Interval := Interval000;
     jm := Some DefaultJSONEncode;
     jum := Some DefaultJSONDecode;
     guard := pkg_guard;
     guardf := pkg_guardf;
     dp := pkg_dp;
     dpf := pkg_dpf;
     bufC := [] |}.

Definition New (opts : list (option OptionFunc)) : option Currency :=
  match Option New_literal opts with
  | Some (c, _) => Some c
  | None => None
  end.

Definition Raw (c : Currency) : Z := m c.

Definition Neg (c : Currency) : Currency :=
  if negb (m c =? 0) then set_m c (Int64.mul (m c) (-1)) else c.

Definition Abs (c : Currency) : Currency :=
  if m c <? 0 then Neg c else c.

Definition Getf (c : Currency) : float64 := div (of_int (m c)) (dpf c).

Definition Geti (c : Currency) : option Z := Int64.quo (m c) (dp c).

Definition Dec (c : Currency) : option Z := Int64.rem (Raw (Abs c)) (dp c).

(** The method [Set]. *)
Definition Set_ (c : Currency) (i : Z) : Currency :=
  set_Valid (set_m c i) true.

Definition Setf (c : Currency) (f : float64) : Currency :=
  let fDPf := mul f (dpf c) in
  let r := to_int64 (mul f (dpf c)) in
  Set_ (set_Valid c true) (rnd r (sub fDPf (of_int r))).

Definition Sign (c : Currency) : Z := if m c <? 0 then -1 else 1.

(** [New()] without options is [New_literal] ([New_nil] below). *)
Definition Add (c d : Currency) : Currency :=
  let r := Int64.add (m c) (m d) in
  if Z.land (Z.lxor r (m c)) (Z.lxor r (m d)) <? 0 then New_literal
  else set_Valid (set_m c r) true.

Definition Sub (c d : Currency) : Currency :=
  let r := Int64.sub (m c) (m d) in
  if Z.ldiff (Z.lxor r (m c)) (Z.lxor r (m d)) <? 0 then New_literal
  else set_m c r.

Definition Mul (c d : Currency) : option Currency :=
  match Int64.quo (Int64.mul (m c) (m d)) (dp c) with
  | Some q => Some (Set_ c q)
  | None => None
  end.

Definition Div (c d : Currency) : Currency :=
  let f := div (div (mul (mul (guardf c) (dpf c)) (of_int (m c))) (of_int (m d)))
               (guardf c) in
  let i := to_int64 f in
  Set_ c (rnd i (sub f (of_int i))).

Definition Mulf (c : Currency) (f : float64) : option Currency :=
  let i := Int64.mul (m c) (to_int64 (mul (mul f (guardf c)) (dpf c))) in
  match Int64.quo i (guard c) with
  | Some q =>
      match Int64.quo q (dp c) with
      | Some r =>
          Some (Set_ c (rnd r (sub (div (div (of_int i) (guardf c)) (dpf c)) (of_int r))))
      | None => None
      end
  | None => None
  end.

(** The method [Swedish]: the options act on the receiver's copy, then the
    interval of the copy selects the rounding. *)
Definition Currency_Swedish (c : Currency) (opts : list (option OptionFunc))
  : option Currency :=
  match Option c opts with
  | None => None
  | Some (c, _) =>
      Some
        (if Interval c =? Interval005 then
           Setf c (div (Round (mul (Getf c) (of_int 20))) (of_int 20))
         else if Interval c =? Interval010 then
           Setf c (div (Round (mul (Getf c) (of_int 10))) (of_int 10))
         else if Interval c =? Interval015 then
           let c := if Z.rem (m c) 5 =? 0 then set_m c (Int64.sub (m c) 1) else c in
           Setf c (div (Round (mul (Getf c) (of_int 10))) (of_int 10))
         else if Interval c =? Interval025 then
           Setf c (div (Round (mul (Getf c) (of_int 4))) (of_int 4))
         else if Interval c =? Interval050 then
           Setf c (div (Round (mul (Getf c) (of_int 2))) (of_int 2))
         else if Interval c =? Interval100 then
           Setf c (div (Round (mul (Getf c) (of_int 1))) (of_int 1))
         else c)
  end.

(** *** Configurations

    The values an [OptionFunc] variable can hold: the results of the six
    constructors. *)
Inductive constructed : OptionFunc -> Prop :=
| constructed_Swedish (i : Interval_t) : constructed (Swedish i)
| constructed_Guard (g : Z) : constructed (Guard g)
| constructed_Precision (p : Z) : constructed (Precision p)
| constructed_Format (f : CurrencyFormatter) : constructed (FormatFn f)
| constructed_JSONMarshal (j : option JSONMarshaller) : constructed (JSONMarshal j)
| constructed_JSONUnmarshal (j : option JSONUnmarshaller) :
    constructed (JSONUnmarshal j).

(** An entry of an option list: nil or the result of a constructor. *)
Definition option_entry (o : option OptionFunc) : Prop :=
  match o with
  | None => True
  | Some o => constructed o
  end.

(** The precisions [Precision] stores as they are given. *)
Definition precision_kept (p : Z) : Prop :=
  p <> 0 /\ (p = pkg_dp \/ Z.rem (Ln.Log_int64 p) 2 = 0).

(** The configurations the constructors can leave in a [Currency]: what
    [New] and the options keep, and what the zero value of the struct
    lacks. *)
Definition configured (c : Currency) : Prop :=
  Interval c < interval999 /\
  guard c <> 0 /\
  precision_kept (dp c) /\
  fmt c <> None /\ jm c <> None /\ jum c <> None.

(** The field an option function writes has the same value in [c] and
    [c']. *)
Definition same_field (o : OptionFunc) (c c' : Currency) : Prop :=
  match o with
  | SwedishFn _ => Interval c' = Interval c
  | GuardFn _ => guard c' = guard c
  | PrecisionFn _ => dp c' = dp c
  | FormatFn _ => fmt c' = fmt c
  | JSONMarshalFn _ => jm c' = jm c
  | JSONUnmarshalFn _ => jum c' = jum c
  end.

(** An option is applied, and then the option it returned. *)
Definition apply_undo (o : OptionFunc) (c : Currency) : option Currency :=
  match call o c with
  | Some (c1, inverse) =>
      match call inverse c1 with
      | Some (c2, _) => Some c2
      | None => None
      end
  | None => None
  end.

End Money.

(** ** An instance of the package

    One choice of the parameters, on which the statements below are run:
    one-element interfaces and a guard and a precision of four digits. *)

Module Shop.

Definition package : Package :=
  {| CurrencyFormatter := unit;
     JSONMarshaller := unit;
     JSONUnmarshaller := unit;
     pkg_guard := 10000;
     pkg_guardf := of_int 10000;
     pkg_dp := 10000;
     pkg_dpf := of_int 10000;
     DefaultFormat := tt;
     DefaultJSONEncode := tt;
     DefaultJSONDecode := tt;
     NewJSONEncoder := tt;
     NewJSONDecoder := tt |}.

(** [New()]. *)
Definition money : Currency := @New_literal package.

(** [New(Precision(100))]: two decimal places. *)
Definition cents : Currency :=
  match @New package [Some (Precision 100)] with
  | Some c => c
  | None => money
  end.

(** The zero value of the struct, [var c Currency]. *)
Definition zero_value : Currency :=
  @mkCurrency package 0 None false 0 None None 0 (S754_zero false) 0
              (S754_zero false) [].

End Shop.

(** ** Predicates of the statements *)

(** The [n] integers from [lo] on. *)
Definition Z_range (lo : Z) (n : nat) : list Z :=
  map (fun k => lo + Z.of_nat k) (seq 0 n).

Section Statements.

Context {P : Package}.

(** [c'] carries the configuration of [c]: every field but the amount and
    the [Valid] flag. *)
Definition same_config (c c' : Currency) : Prop :=
  fmt c' = fmt c /\ Interval c' = Interval c /\
  jm c' = jm c /\ jum c' = jum c /\
  guard c' = guard c /\ guardf c' = guardf c /\
  dp c' = dp c /\ dpf c' = dpf c /\ bufC c' = bufC c.

(** [c.Set(raw)], read as a float and set again, has the raw amount
    [raw]. *)
Definition Getf_Setf_gives (c : Currency) (raw : Z) : bool :=
  Raw (Setf c (Getf (Set_ c raw))) =? raw.

(** The raw amount of [c.Set(raw).Swedish(Swedish(i))]. *)
Definition Swedish_of (c : Currency) (i : Interval_t) (raw : Z) : option Z :=
  option_map Raw (Currency_Swedish (Set_ c raw) [Some (Swedish i)]).

(** [r] is a multiple of [step] and no further than half a step from
    [raw]. *)
Definition nearest_multiple (step raw : Z) (r : option Z) : bool :=
  match r with
  | Some r => (Z.rem r step =? 0) && (2 * Z.abs (r - raw) <=? step)
  | None => false
  end.

(** The six intervals give the multiples of 5, 10, 10, 25, 50 and 100. *)
Definition Swedish_nearest (c : Currency) (raw : Z) : bool :=
  nearest_multiple 5 raw (Swedish_of c Interval005 raw) &&
  nearest_multiple 10 raw (Swedish_of c Interval010 raw) &&
  nearest_multiple 10 raw (Swedish_of c Interval015 raw) &&
  nearest_multiple 25 raw (Swedish_of c Interval025 raw) &&
  nearest_multiple 50 raw (Swedish_of c Interval050 raw) &&
  nearest_multiple 100 raw (Swedish_of c Interval100 raw).

Definition option_Z_eqb (a b : option Z) : bool :=
  match a, b with
  | Some x, Some y => x =? y
  | _, _ => false
  end.

(** Rounding a rounded amount again with the same interval changes
    nothing. *)
Definition Swedish_twice_same (c : Currency) (i : Interval_t) (raw : Z) : bool :=
  match Swedish_of c i raw with
  | Some r => option_Z_eqb (Swedish_of c i r) (Some r)
  | None => false
  end.

Definition Swedish_idempotent (c : Currency) (raw : Z) : bool :=
  forallb (fun i => Swedish_twice_same c i raw)
          [Interval000; Interval005; Interval010; Interval015; Interval025;
           Interval050; Interval100].

(** [Interval015] and [Interval010] part on the amounts that end in 5,
    five below and five above, and agree on all others. *)
Definition Interval015_vs_010 (c : Currency) (raw : Z) : bool :=
  if Z.abs (Z.rem raw 10) =? 5 then
    option_Z_eqb (Swedish_of c Interval015 raw) (Some (raw - 5)) &&
    option_Z_eqb (Swedish_of c Interval010 raw) (Some (raw + 5))
  else
    option_Z_eqb (Swedish_of c Interval015 raw) (Swedish_of c Interval010 raw).

End Statements.

(** ** Facts on int64 *)

Module Int64Facts.

Import Int64.

Lemma in_rangeb_spec z : in_rangeb z = true <-> in_range z.
Proof.
  unfold in_rangeb, in_range.
  rewrite andb_true_iff, !Z.leb_le. tauto.
Qed.

Lemma wrap_in_range z : in_range (wrap z).
Proof.
  unfold in_range, wrap, min_int64, max_int64.
  pose proof (Z.mod_pos_bound (z + 2 ^ 63) (2 ^ 64) ltac:(lia)). lia.
Qed.

Lemma wrap_small z : in_range z -> wrap z = z.
Proof.
  unfold in_range, wrap, min_int64, max_int64. intros H.
  rewrite Z.mod_small by lia. lia.
Qed.

(** Past the upper end the register holds the sum less [2^64], past the
    lower end the sum plus [2^64]. *)
Lemma wrap_above z : max_int64 < z <= 2 * max_int64 + 1 -> wrap z = z - 2 ^ 64.
Proof.
  unfold wrap, max_int64. intros H.
  replace (z + 2 ^ 63) with (z - 2 ^ 63 + 1 * 2 ^ 64) by lia.
  rewrite Z.mod_add by lia. rewrite Z.mod_small by lia. lia.
Qed.

Lemma wrap_below z : 2 * min_int64 <= z < min_int64 -> wrap z = z + 2 ^ 64.
Proof.
  unfold wrap, min_int64. intros H.
  replace (z + 2 ^ 63) with (z + 2 ^ 63 + 2 ^ 64 + (-1) * 2 ^ 64) by lia.
  rewrite Z.mod_add by lia. rewrite Z.mod_small by lia. lia.
Qed.

Lemma lxor_neg a b : Z.lxor a b < 0 <-> (a < 0 /\ 0 <= b) \/ (0 <= a /\ b < 0).
Proof.
  pose proof (Z.lxor_nonneg a b). lia.
Qed.

Lemma add_overflows_spec a b :
  in_range a -> in_range b ->
  add_overflows a b = true <-> ~ in_range (a + b).
Proof.
  intros Ha Hb. unfold add_overflows, add.
  rewrite Z.ltb_lt, Z.land_neg, !lxor_neg.
  unfold in_range, min_int64, max_int64 in *.
  destruct (Z_lt_le_dec max_int64 (a + b)) as [Hhi | Hhi].
  - rewrite wrap_above by (unfold max_int64 in *; lia).
    unfold max_int64 in *. lia.
  - destruct (Z_lt_le_dec (a + b) min_int64) as [Hlo | Hlo].
    + rewrite wrap_below by (unfold min_int64 in *; lia).
      unfold min_int64, max_int64 in *. lia.
    + rewrite wrap_small by (unfold in_range; lia).
      unfold min_int64, max_int64 in *. lia.
Qed.

Lemma sub_overflows_spec a b :
  in_range a -> in_range b ->
  sub_overflows a b = true <-> ~ in_range (a - b).
Proof.
  intros Ha Hb. unfold sub_overflows, sub.
  rewrite Z.ltb_lt, Z.ldiff_neg, lxor_neg, Z.lxor_nonneg.
  unfold in_range, min_int64, max_int64 in *.
  destruct (Z_lt_le_dec max_int64 (a - b)) as [Hhi | Hhi].
  - rewrite wrap_above by (unfold max_int64 in *; lia).
    unfold max_int64 in *. lia.
  - destruct (Z_lt_le_dec (a - b) min_int64) as [Hlo | Hlo].
    + rewrite wrap_below by (unfold min_int64 in *; lia).
      unfold min_int64, max_int64 in *. lia.
    + rewrite wrap_small by (unfold in_range; lia).
      unfold min_int64, max_int64 in *. lia.
Qed.

End Int64Facts.

Module LnFacts.

Import Ln.

(** The table holds the integer parts of [e^1] to [e^43], the powers of
    [e] an [int64] can reach: [e^44] is beyond [2^63]. *)
Lemma exp_floors_exact :
  length exp_floors = 43%nat /\
  are_exp_floors exp_floors e_num (e_num + 1) e_den = true.
Proof. vm_compute. split; reflexivity. Qed.

Example Log_int64_100 : Log_int64 100 = 4.
Proof. vm_compute. reflexivity. Qed.

Example Log_int64_10000 : Log_int64 10000 = 9.
Proof. vm_compute. reflexivity. Qed.

(** At the integer parts of [e^33] and [e^34] the real logarithm is less
    than half a unit in the last place below 33 and 34, and the float
    logarithm is 33 and 34. *)
Example Log_int64_at_exp_33 :
  Log_int64 214643579785916 = 33 /\ ln_floor 214643579785916 = 32.
Proof. vm_compute. split; reflexivity. Qed.

Example Log_int64_at_exp_34 :
  Log_int64 583461742527454 = 34 /\ ln_floor 583461742527454 = 33.
Proof. vm_compute. split; reflexivity. Qed.

(** The special cases: zero and the negative integers. *)
Example Log_int64_not_positive :
  Log_int64 0 = Int64.min_int64 /\ Log_int64 (-100) = Int64.min_int64.
Proof. vm_compute. split; reflexivity. Qed.

End LnFacts.

(** ** Overflow-checked addition and subtraction *)

Section Arithmetic.

Context {P : Package}.

Lemma New_nil : New [] = Some New_literal.
Proof. reflexivity. Qed.

(** The test of [Add] is the test of [Int64.add_overflows]. *)
Lemma Add_cases (c d : Currency) :
  Add c d =
  if Int64.add_overflows (m c) (m d) then New_literal
  else set_Valid (set_m c (Int64.add (m c) (m d))) true.
Proof. reflexivity. Qed.

Lemma Sub_cases (c d : Currency) :
  Sub c d =
  if Int64.sub_overflows (m c) (m d) then New_literal
  else set_m c (Int64.sub (m c) (m d)).
Proof. reflexivity. Qed.

Lemma Add_no_overflow (c d : Currency) :
  Int64.in_range (m c) -> Int64.in_range (m d) ->
  Int64.in_range (m c + m d) ->
  Add c d = set_Valid (set_m c (m c + m d)) true.
Proof.
  intros Hc Hd Hr. rewrite Add_cases.
  destruct (Int64.add_overflows (m c) (m d)) eqn:E.
  - apply Int64Facts.add_overflows_spec in E; tauto.
  - unfold Int64.add. now rewrite Int64Facts.wrap_small.
Qed.

Lemma Sub_no_overflow (c d : Currency) :
  Int64.in_range (m c) -> Int64.in_range (m d) ->
  Int64.in_range (m c - m d) ->
  Sub c d = set_m c (m c - m d).
Proof.
  intros Hc Hd Hr. rewrite Sub_cases.
  destruct (Int64.sub_overflows (m c) (m d)) eqn:E.
  - apply Int64Facts.sub_overflows_spec in E; tauto.
  - unfold Int64.sub. now rewrite Int64Facts.wrap_small.
Qed.

(** C1. When the exact sum of the two raw amounts leaves the [int64] range,
    the sign-bit test of [Add] fires and [Add] returns [New()]: the default
    configuration, raw amount 0, [Valid] false. *)
Theorem Add_overflow_returns_New (c d : Currency) :
  Int64.in_range (m c) -> Int64.in_range (m d) ->
  ~ Int64.in_range (m c + m d) ->
  Int64.add_overflows (m c) (m d) = true /\
  New [] = Some (Add c d) /\
  Add c d = New_literal /\
  Raw (Add c d) = 0 /\
  Valid (Add c d) = false.
Proof.
  intros Hc Hd Hr.
  assert (E : Int64.add_overflows (m c) (m d) = true)
    by now apply Int64Facts.add_overflows_spec.
  rewrite Add_cases, E. repeat split.
Qed.

(** C2. When [a.Add(b)] does not overflow, subtracting [b] again does not
    overflow either and gives back the raw amount of [a]. *)
Theorem Add_Sub_Raw (a b : Currency) :
  Int64.in_range (m a) -> Int64.in_range (m b) ->
  Int64.in_range (m a + m b) ->
  Raw (Sub (Add a b) b) = Raw a.
Proof.
  intros Ha Hb Hr.
  rewrite (Add_no_overflow a b Ha Hb Hr).
  rewrite Sub_no_overflow; cbn.
  - unfold Raw. lia.
  - exact Hr.
  - exact Hb.
  - replace (m a + m b - m b) with (m a) by lia. exact Ha.
Qed.

(** C9. A subtraction that does not overflow leaves the [Valid] flag of the
    receiver as it was, an addition that does not overflow sets it: from an
    invalid receiver [Sub] returns an invalid difference and [Add] a valid
    sum. *)
Theorem Sub_keeps_Valid_Add_sets_it (c d : Currency) :
  Int64.in_range (m c) -> Int64.in_range (m d) ->
  (Int64.in_range (m c - m d) ->
   Valid (Sub c d) = Valid c /\ Raw (Sub c d) = m c - m d) /\
  (Int64.in_range (m c + m d) ->
   Valid (Add c d) = true /\ Raw (Add c d) = m c + m d).
Proof.
  intros Hc Hd. split; intros Hr.
  - rewrite (Sub_no_overflow c d Hc Hd Hr). split; reflexivity.
  - rewrite (Add_no_overflow c d Hc Hd Hr). split; reflexivity.
Qed.

(** ** Negation, absolute value and decimals *)

Lemma Neg_Raw (c : Currency) : Raw (Neg c) = Int64.wrap (- m c).
Proof.
  unfold Neg, Raw. destruct (m c =? 0) eqn:E; cbn.
  - apply Z.eqb_eq in E. rewrite E. reflexivity.
  - unfold Int64.mul. f_equal. lia.
Qed.

Lemma Abs_Raw (c : Currency) :
  Int64.in_range (m c) -> Int64.min_int64 < m c -> Raw (Abs c) = Z.abs (m c).
Proof.
  intros Hc Hmin. unfold Abs. destruct (m c <? 0) eqn:E.
  - apply Z.ltb_lt in E. rewrite Neg_Raw, Int64Facts.wrap_small.
    + lia.
    + unfold Int64.in_range, Int64.min_int64, Int64.max_int64 in *. lia.
  - apply Z.ltb_ge in E. unfold Raw. lia.
Qed.

(** C10. Above [MinInt64] the raw amount of [Abs()] is not negative; at
    [MinInt64] the product with -1 wraps, [Neg] and [Abs] return [MinInt64]
    itself, a negative amount. *)
Theorem Abs_nonneg_but_at_min_int64 (c : Currency) :
  Int64.in_range (m c) ->
  (Int64.min_int64 < m c -> 0 <= Raw (Abs c)) /\
  (m c = Int64.min_int64 ->
   Raw (Neg c) = Int64.min_int64 /\ Raw (Abs c) = Int64.min_int64 /\
   Raw (Abs c) < 0).
Proof.
  intros Hc. split.
  - intros Hmin. rewrite Abs_Raw by assumption. lia.
  - intros E.
    assert (HN : Raw (Neg c) = Int64.min_int64)
      by (rewrite Neg_Raw, E; reflexivity).
    assert (HA : Raw (Abs c) = Int64.min_int64)
      by (unfold Abs; rewrite E; exact HN).
    rewrite HA. split; [exact HN|]. split; reflexivity.
Qed.

(** On a non-negative dividend the remainder of Go is the one of [Z.rem]
    and is not negative. *)
Lemma rem_nonneg_dividend (a b : Z) :
  Int64.in_range a -> 0 <= a -> b <> 0 ->
  Int64.rem a b = Some (Z.rem a b) /\ 0 <= Z.rem a b.
Proof.
  intros Ha H0 Hb. unfold Int64.rem.
  destruct (b =? 0) eqn:E; [apply Z.eqb_eq in E; contradiction|].
  assert (H1 : 0 <= Z.rem a b) by (apply Z.rem_nonneg; assumption).
  assert (H2 : Z.rem a b <= a).
  { rewrite <- Z.rem_abs_r by assumption. apply Z.rem_le; lia. }
  rewrite Int64Facts.wrap_small; [auto|].
  unfold Int64.in_range, Int64.min_int64, Int64.max_int64 in *. lia.
Qed.

(** C8, amended. For an amount above [MinInt64] and a precision other than
    zero, [Dec()] is the remainder of the absolute value, [|amount| % dp],
    which is [Abs().Raw() % dp] and is not negative. *)
Theorem Dec_is_rem_of_abs (c : Currency) :
  Int64.in_range (m c) -> Int64.min_int64 < m c -> dp c <> 0 ->
  Dec c = Some (Z.rem (Z.abs (m c)) (dp c)) /\
  Dec c = Int64.rem (Raw (Abs c)) (dp c) /\
  0 <= Z.rem (Z.abs (m c)) (dp c).
Proof.
  intros Hc Hmin Hdp. unfold Dec. rewrite Abs_Raw by assumption.
  destruct (rem_nonneg_dividend (Z.abs (m c)) (dp c)) as [E H0]; try assumption.
  - unfold Int64.in_range, Int64.min_int64, Int64.max_int64 in *. lia.
  - lia.
  - rewrite E. auto.
Qed.

End Arithmetic.

(** ** Guard-digit rounding *)

Section Rounding.

Context {P : Package}.

Lemma RoundTo_value : RoundTo = S754_finite false 4503599627370496 (-53).
Proof. vm_compute. reflexivity. Qed.

Lemma RoundToN_value : RoundToN = S754_finite true 4503599627370496 (-53).
Proof. vm_compute. reflexivity. Qed.

Lemma of_int_0 : of_int 0 = S754_zero false.
Proof. reflexivity. Qed.

(** A remainder that is at least [RoundTo] is above zero, one that is
    below [RoundToN] is not. *)
Lemma leb_RoundTo_positive (t : float64) :
  leb RoundTo t = true -> ltb (of_int 0) t = true.
Proof.
  rewrite RoundTo_value, of_int_0.
  destruct t as [s | s | | s mt e]; try destruct s; intros H;
    first [reflexivity | exact (False_ind _ (diff_false_true H))].
Qed.

Lemma ltb_RoundToN_negative (t : float64) :
  ltb t RoundToN = true -> ltb (of_int 0) t = false.
Proof.
  rewrite RoundToN_value, of_int_0.
  destruct t as [s | s | | s mt e]; try destruct s; intros H;
    first [reflexivity | exact (False_ind _ (diff_false_true H))].
Qed.

(** C3, amended. [rnd] rounds half toward plus infinity: a remainder of
    [RoundTo] (0.5) or more adds one to [r], a remainder strictly below
    [RoundToN] (-0.5) takes one away, and every other remainder, -0.5 and
    NaN among them, leaves [r] as it is. The sums are those of [int64]. *)
Theorem rnd_half_up (r : Z) (t : float64) :
  (leb RoundTo t = true -> rnd r t = Int64.add r 1) /\
  (ltb t RoundToN = true -> rnd r t = Int64.sub r 1) /\
  (leb RoundTo t = false -> ltb t RoundToN = false -> rnd r t = r).
Proof.
  unfold rnd. split; [|split].
  - intros H. rewrite (leb_RoundTo_positive t H), H. reflexivity.
  - intros H. rewrite (ltb_RoundToN_negative t H), H. reflexivity.
  - intros H1 H2. rewrite H1, H2. destruct (ltb (of_int 0) t); reflexivity.
Qed.

(** ** Swedish rounding *)

(** C6. At two decimal places ([dpf] is 100), [Interval015] takes 0.45 to
    0.40, the amount being lowered to 44 before the rounding step since 5
    divides 45, where [Interval010] takes 0.45 to 0.50; [Interval010] takes
    0.43 to 0.40 and 0.46 to 0.50. *)
Theorem Swedish_at_two_places (c : Currency) :
  dpf c = of_int 100 ->
  let rounded (raw : Z) (i : Interval_t) :=
    option_map Raw (Currency_Swedish (Set_ c raw) [Some (Swedish i)]) in
  rounded 45 Interval015 = Some 40 /\
  rounded 45 Interval015 = rounded 44 Interval010 /\
  rounded 45 Interval010 = Some 50 /\
  rounded 43 Interval010 = Some 40 /\
  rounded 46 Interval010 = Some 50.
Proof.
  destruct c as [cm cfmt cvalid cint cjm cjum cg cgf cdp cdpf cbuf].
  cbn [dpf]. intros ->. vm_compute. repeat split.
Qed.

End Rounding.

(** ** Option functions *)

Section Options.

Context {P : Package}.

(** A precision that is not zero, and is the package default unless its
    logarithm has an even integer part, is stored as it is. *)
Lemma Precision_kept (p : Z) : precision_kept p -> Precision p = PrecisionFn p.
Proof.
  intros [Hp Hl]. unfold Precision.
  destruct (p =? 0) eqn:E0; [apply Z.eqb_eq in E0; contradiction|].
  destruct (Z.rem (Ln.Log_int64 p) 2 =? 0) eqn:El; cbn [negb andb].
  - now rewrite E0.
  - destruct Hl as [Hl | Hl].
    + rewrite <- Hl, E0. reflexivity.
    + apply Z.eqb_neq in El. contradiction.
Qed.

(** What [Precision] stores is stored again as it is. *)
Lemma Precision_stores_kept (p : Z) :
  exists p64, Precision p = PrecisionFn p64 /\ precision_kept p64.
Proof.
  unfold Precision, precision_kept.
  destruct (p =? 0) eqn:E0; cbn [negb andb].
  - exists 1. rewrite E0. split; [reflexivity|]. split; [lia|]. now right.
  - destruct (Z.rem (Ln.Log_int64 p) 2 =? 0) eqn:El; cbn [negb].
    + exists p. rewrite E0. apply Z.eqb_neq in E0. apply Z.eqb_eq in El. auto.
    + destruct (pkg_dp =? 0) eqn:Ed.
      * exists 1. split; [reflexivity|]. split; [lia|]. now right.
      * exists pkg_dp. apply Z.eqb_neq in Ed. auto.
Qed.

Lemma Swedish_in_scope (i : Interval_t) :
  exists i', Swedish i = SwedishFn i' /\ i' < interval999.
Proof.
  unfold Swedish. destruct (interval999 <=? i) eqn:E.
  - exists Interval000. split; reflexivity.
  - exists i. apply Z.leb_gt in E. auto.
Qed.

Lemma Guard_not_zero (g : Z) :
  exists g', Guard g = GuardFn g' /\ g' <> 0 /\ g' = (if g =? 0 then 1 else g).
Proof.
  unfold Guard. destruct (g =? 0) eqn:E.
  - exists 1. repeat split. lia.
  - exists g. apply Z.eqb_neq in E. auto.
Qed.

(** A constructed option applied to a [Currency] with a formatter returns,
    and what it returns is a constructed option again. *)
Lemma call_returns (o : OptionFunc) (c : Currency) :
  constructed o -> fmt c <> None ->
  exists c' inverse,
    call o c = Some (c', inverse) /\ constructed inverse /\ fmt c' <> None.
Proof.
  intros Ho Hf. destruct Ho; cbn.
  - eexists _, _. split; [reflexivity|]. split; [constructor | exact Hf].
  - eexists _, _. split; [reflexivity|]. split; [constructor | exact Hf].
  - eexists _, _. split; [reflexivity|]. split; [constructor | exact Hf].
  - destruct (fmt c) as [f0|] eqn:E; [|contradiction]. cbn.
    eexists _, _. split; [reflexivity|]. split; [constructor | discriminate].
  - eexists _, _. split; [reflexivity|]. split; [constructor | exact Hf].
  - eexists _, _. split; [reflexivity|]. split; [constructor | exact Hf].
Qed.

(** The guard stays away from zero under every constructed option. *)
Lemma call_guard (o : OptionFunc) (c c' : Currency) (inverse : OptionFunc) :
  constructed o -> call o c = Some (c', inverse) ->
  guard c <> 0 -> guard c' <> 0.
Proof.
  intros Ho Hc Hg. destruct Ho; cbn in Hc.
  - injection Hc as <- _. exact Hg.
  - injection Hc as <- _. cbn. destruct (g =? 0) eqn:E; [lia|].
    now apply Z.eqb_neq in E.
  - injection Hc as <- _. exact Hg.
  - destruct (fmt c) as [f0|]; cbn in Hc; [|discriminate Hc].
    injection Hc as <- _. exact Hg.
  - injection Hc as <- _. exact Hg.
  - injection Hc as <- _. exact Hg.
Qed.

(** The conjuncts of [configured] after a call: each is a hypothesis or
    says that a field just set is not nil. *)
Ltac configured_fields :=
  repeat match goal with |- _ /\ _ => split end;
  first [assumption | discriminate].

(** So does the whole configuration. *)
Lemma call_configured (o : OptionFunc) (c c' : Currency) (inverse : OptionFunc) :
  constructed o -> call o c = Some (c', inverse) ->
  configured c -> configured c'.
Proof.
  intros Ho Hc (Hi & Hg & Hp & Hf & Hj & Hu).
  pose proof (call_guard o c c' inverse Ho Hc Hg) as Hg'.
  unfold configured. destruct Ho; cbn in Hc.
  - destruct (Swedish_in_scope i) as (i' & Ei & Hi').
    unfold Swedish in Ei. injection Ei as Ei. rewrite Ei in Hc.
    injection Hc as <- _. cbn. configured_fields.
  - injection Hc as <- _. cbn in *. configured_fields.
  - destruct (Precision_stores_kept p) as (p64 & Ep & Hp64).
    unfold Precision in Ep. injection Ep as Ep. rewrite Ep in Hc.
    injection Hc as <- _. cbn. configured_fields.
  - destruct (fmt c) as [f0|]; cbn in Hc; [|discriminate Hc].
    injection Hc as <- _. cbn. configured_fields.
  - injection Hc as <- _. cbn. configured_fields.
  - injection Hc as <- _. cbn. configured_fields.
Qed.

(** [Option] over a list of constructed options: every call returns, and
    an invariant of the calls that keeps a formatter in place holds at the
    end. *)
Lemma Option_from_invariant (I : Currency -> Prop) :
  (forall o c c' inverse,
      constructed o -> call o c = Some (c', inverse) -> I c -> I c') ->
  forall opts previous c,
    Forall option_entry opts -> I c -> fmt c <> None ->
    exists c' previous',
      Option_from previous opts c = Some (c', previous') /\ I c' /\ fmt c' <> None.
Proof.
  intros Hstep opts. induction opts as [| o opts IH]; intros previous c Hopts Hc Hf.
  - exists c, previous. cbn. auto.
  - inversion Hopts as [| o' opts' Ho Hrest]; subst.
    destruct o as [o|]; cbn.
    + destruct (call_returns o c Ho Hf) as (c1 & inverse & E & _ & Hf1).
      rewrite E. apply IH; try assumption.
      exact (Hstep o c c1 inverse Ho E Hc).
    + apply IH; assumption.
Qed.

Lemma New_literal_configured :
  pkg_guard <> 0 -> pkg_dp <> 0 -> configured New_literal.
Proof.
  intros Hg Hp. unfold configured, precision_kept. cbn.
  repeat match goal with |- _ /\ _ => split end;
    first [assumption | discriminate | reflexivity | now left].
Qed.

(** Every [Currency] that [New] builds from constructed options is
    configured, when the package defaults are not zero. *)
Lemma New_configured (opts : list (option OptionFunc)) :
  pkg_guard <> 0 -> pkg_dp <> 0 -> Forall option_entry opts ->
  exists c, New opts = Some c /\ configured c.
Proof.
  intros Hg Hp Hopts. unfold New, Option.
  destruct (Option_from_invariant configured call_configured opts None
              New_literal Hopts (New_literal_configured Hg Hp))
    as (c & previous & E & Hc & _); [discriminate|].
  rewrite E. exists c. auto.
Qed.

(** C4, amended. On a configured [Currency] (one built by [New] and the
    options from package defaults that are not zero), every option returns,
    the option it returned returns too, and the field the option wrote has
    its previous value again. *)
Theorem option_then_inverse_restores (o : OptionFunc) (c : Currency) :
  constructed o -> configured c ->
  exists c2, apply_undo o c = Some c2 /\ same_field o c c2.
Proof.
  intros Ho (Hi & Hg & Hp & Hf & Hj & Hu). unfold apply_undo.
  destruct Ho.
  - cbn. apply Z.leb_gt in Hi. rewrite Hi. eexists. split; reflexivity.
  - cbn. apply Z.eqb_neq in Hg. rewrite Hg. eexists. split; reflexivity.
  - destruct (Precision_stores_kept p) as (p64 & Ep & _).
    rewrite Ep. cbn [call]. rewrite (Precision_kept (dp c) Hp). cbn [call].
    eexists. split; reflexivity.
  - cbn. destruct (fmt c) as [f0|] eqn:E; [|contradiction]. cbn.
    eexists. split; reflexivity.
  - cbn. destruct (jm c) as [j0|] eqn:E; [|contradiction]. cbn.
    eexists. split; reflexivity.
  - cbn. destruct (jum c) as [j0|] eqn:E; [|contradiction]. cbn.
    eexists. split; reflexivity.
Qed.

(** C5, where the code leaves its documentation: 8 is no power of ten, the
    integer part of its natural logarithm is 2, an even number, and
    [Precision(8)] stores 8, whatever the package default is. *)
Theorem Precision_8_is_stored (c : Currency) :
  Ln.Log_int64 8 = 2 /\
  call (Precision 8) c = Some (set_dp c 8 (of_int 8), Precision (dp c)).
Proof.
  split.
  - vm_compute. reflexivity.
  - cbn [call]. unfold Precision at 1.
    replace (Ln.Log_int64 8) with 2 by (vm_compute; reflexivity).
    reflexivity.
Qed.

(** C7, amended. [Guard] coerces zero to 1 and stores every other
    argument as it is, so the guard it stores is never zero; and when the
    package default is not zero, no list of options leaves a zero guard in
    the [Currency] that [New] returns. *)
Theorem guard_never_zero :
  (forall (g : Z) (c : Currency),
      exists c' inverse,
        call (Guard g) c = Some (c', inverse) /\
        guard c' = (if g =? 0 then 1 else g) /\
        guard c' <> 0) /\
  (pkg_guard <> 0 ->
   forall opts : list (option OptionFunc),
     Forall option_entry opts ->
     exists c, New opts = Some c /\ guard c <> 0).
Proof.
  split.
  - intros g c. cbn. eexists _, _. split; [reflexivity|]. cbn.
    split; [reflexivity|].
    destruct (g =? 0) eqn:E; [lia | now apply Z.eqb_neq in E].
  - intros Hg opts Hopts. unfold New, Option.
    destruct (Option_from_invariant (fun c => guard c <> 0) call_guard opts None
                New_literal Hopts Hg)
      as (c & previous & E & Hc & _); [discriminate|].
    rewrite E. exists c. auto.
Qed.

End Options.

(** ** The statements on the instance [Shop] *)

Ltac in_int64 := apply Int64Facts.in_rangeb_spec; vm_compute; reflexivity.

Ltac not_in_int64 :=
  let H := fresh in
  intros H; apply Int64Facts.in_rangeb_spec in H; vm_compute in H; discriminate H.

(** [Set(math.MaxInt64/2+1).Add(Set(math.MaxInt64/2+1))] takes the overflow
    path. *)
Lemma Add_overflow_returns_New_witness :
  let a := Set_ Shop.money (Int64.max_int64 / 2 + 1) in
  ~ Int64.in_range (m a + m a) /\
  New [] = Some (Add a a) /\ Raw (Add a a) = 0 /\ Valid (Add a a) = false.
Proof.
  intros a.
  assert (Ha : Int64.in_range (m a)) by in_int64.
  assert (Hs : ~ Int64.in_range (m a + m a)) by not_in_int64.
  destruct (Add_overflow_returns_New a a Ha Ha Hs) as (_ & H1 & _ & H2 & H3).
  auto.
Defined.

Lemma Add_Sub_Raw_witness :
  let a := Set_ Shop.money 150 in
  let b := Set_ Shop.money 275 in
  Int64.in_range (m a + m b) /\ Raw (Sub (Add a b) b) = Raw a.
Proof.
  intros a b.
  assert (Ha : Int64.in_range (m a)) by in_int64.
  assert (Hb : Int64.in_range (m b)) by in_int64.
  assert (Hs : Int64.in_range (m a + m b)) by in_int64.
  split; [exact Hs | exact (Add_Sub_Raw a b Ha Hb Hs)].
Defined.

(** [New()] is not valid: [Sub] leaves it so, [Add] does not. *)
Lemma Sub_keeps_Valid_Add_sets_it_witness :
  let c := Shop.money in
  let d := Set_ Shop.money 5 in
  Valid c = false /\ Valid (Sub c d) = false /\ Valid (Add c d) = true.
Proof.
  intros c d.
  assert (Hc : Int64.in_range (m c)) by in_int64.
  assert (Hd : Int64.in_range (m d)) by in_int64.
  destruct (Sub_keeps_Valid_Add_sets_it c d Hc Hd) as [HS HA].
  destruct HS as [HS _]; [in_int64|].
  destruct HA as [HA _]; [in_int64|].
  split; [reflexivity|]. split; [exact HS | exact HA].
Defined.

Lemma Abs_nonneg_but_at_min_int64_witness :
  0 <= Raw (Abs (Set_ Shop.money (-3))) /\
  Raw (Abs (Set_ Shop.money Int64.min_int64)) = Int64.min_int64.
Proof.
  split.
  - apply (Abs_nonneg_but_at_min_int64 (Set_ Shop.money (-3))).
    + in_int64.
    + vm_compute. reflexivity.
  - apply (Abs_nonneg_but_at_min_int64 (Set_ Shop.money Int64.min_int64)).
    + in_int64.
    + reflexivity.
Defined.

Lemma Dec_is_rem_of_abs_witness :
  Dec (Set_ Shop.cents (-1234)) = Some (Z.rem (Z.abs (-1234)) 100).
Proof.
  apply (Dec_is_rem_of_abs (Set_ Shop.cents (-1234))).
  - in_int64.
  - vm_compute. reflexivity.
  - vm_compute. discriminate.
Defined.

(** A remainder of 0.75. *)
Lemma rnd_half_up_witness : rnd 7 (dyadic 3 (-2)) = Int64.add 7 1.
Proof.
  apply (rnd_half_up 7 (dyadic 3 (-2))). vm_compute. reflexivity.
Defined.

Lemma Swedish_at_two_places_witness :
  option_map Raw (Currency_Swedish (Set_ Shop.cents 45) [Some (Swedish Interval015)])
  = Some 40.
Proof.
  apply (Swedish_at_two_places Shop.cents). vm_compute. reflexivity.
Defined.

Lemma Shop_money_configured : configured Shop.money.
Proof.
  apply (@New_literal_configured Shop.package); vm_compute; discriminate.
Qed.

Lemma option_then_inverse_restores_witness :
  exists c2,
    apply_undo (Precision 100) Shop.money = Some c2 /\ dp c2 = dp Shop.money.
Proof.
  destruct (option_then_inverse_restores (Precision 100) Shop.money
              (constructed_Precision 100) Shop_money_configured) as (c2 & E & H).
  exists c2. split; [exact E | exact H].
Defined.

Lemma guard_never_zero_witness :
  exists c, @New Shop.package [Some (Guard 0); None; Some (Guard (-5))] = Some c /\
            guard c <> 0.
Proof.
  apply (proj2 (@guard_never_zero Shop.package)).
  - vm_compute. discriminate.
  - repeat constructor.
Defined.

(** *** Boundary cases *)

(** C3: a remainder of exactly -0.5 leaves [r] as it is. *)
Lemma rnd_minus_half_stays :
  leb RoundToN RoundToN = true /\ rnd 5 RoundToN = 5 /\ rnd 5 RoundToN <> 5 - 1.
Proof.
  split; [vm_compute; reflexivity|]. split; vm_compute; [reflexivity | discriminate].
Qed.

(** C4: on the zero value of the struct, whose guard is 0, [Guard(5)] and
    then its inverse leave a guard of 1. *)
Lemma zero_value_guard_not_restored :
  exists c2,
    apply_undo (Guard 5) Shop.zero_value = Some c2 /\
    guard Shop.zero_value = 0 /\ guard c2 = 1 /\
    ~ same_field (Guard 5) Shop.zero_value c2.
Proof.
  eexists. split; [vm_compute; reflexivity|].
  split; [reflexivity|]. split; [reflexivity|]. cbn. discriminate.
Qed.

(** C7: a negative guard is stored as it is given. *)
Lemma Guard_negative_is_stored :
  exists c,
    @New Shop.package [Some (Guard (-5))] = Some c /\ guard c = -5 /\ ~ 0 < guard c.
Proof.
  eexists. split; [vm_compute; reflexivity|]. split; [reflexivity|].
  cbn. lia.
Qed.

(** C8: at [MinInt64] the decimals are negative, and on the zero value of
    the struct, whose precision is 0, [Dec] divides by zero. *)
Lemma Dec_at_min_int64_negative :
  Dec (Set_ Shop.money Int64.min_int64) = Some (-5808) /\
  Z.rem (Z.abs Int64.min_int64) (dp Shop.money) = 5808 /\
  Dec (Set_ Shop.zero_value 1) = None.
Proof.
  split; [vm_compute; reflexivity|]. split; vm_compute; reflexivity.
Qed.

(** ** More on the operators *)

Section Operators.

Context {P : Package}.

Lemma wrap_opp_opp (z : Z) :
  Int64.in_range z -> Int64.wrap (- Int64.wrap (- z)) = z.
Proof.
  intros Hz.
  destruct (Z.eq_dec z Int64.min_int64) as [-> | Hne].
  - reflexivity.
  - assert (H : Int64.in_range (- z))
      by (unfold Int64.in_range, Int64.min_int64, Int64.max_int64 in *; lia).
    rewrite (Int64Facts.wrap_small (- z) H), Z.opp_involutive.
    now apply Int64Facts.wrap_small.
Qed.

Lemma Neg_set_m (c : Currency) : Neg c = set_m c (Int64.wrap (- m c)).
Proof.
  destruct c as [cm cfmt cvalid cint cjm cjum cg cgf cdp cdpf cbuf].
  unfold Neg, set_m. cbn [m fmt Valid Interval jm jum guard guardf dp dpf bufC].
  destruct (cm =? 0) eqn:E; cbn [negb].
  - apply Z.eqb_eq in E. subst cm. reflexivity.
  - unfold Int64.mul. do 2 f_equal. lia.
Qed.

(** The sign-bit test of [Sub] on its overflow side: when the exact
    difference leaves the [int64] range, [Sub] returns [New()]. *)
Theorem Sub_overflow_returns_New (c d : Currency) :
  Int64.in_range (m c) -> Int64.in_range (m d) ->
  ~ Int64.in_range (m c - m d) ->
  Sub c d = New_literal /\ Raw (Sub c d) = 0 /\ Valid (Sub c d) = false.
Proof.
  intros Hc Hd Hr.
  assert (E : Int64.sub_overflows (m c) (m d) = true)
    by now apply Int64Facts.sub_overflows_spec.
  rewrite Sub_cases, E. split; [reflexivity|]. split; reflexivity.
Qed.

(** When [a.Sub(b)] does not overflow, adding [b] again gives back the raw
    amount of [a]. *)
Theorem Sub_Add_Raw (a b : Currency) :
  Int64.in_range (m a) -> Int64.in_range (m b) ->
  Int64.in_range (m a - m b) ->
  Raw (Add (Sub a b) b) = Raw a.
Proof.
  intros Ha Hb Hr.
  rewrite (Sub_no_overflow a b Ha Hb Hr).
  rewrite Add_no_overflow; cbn.
  - unfold Raw. lia.
  - exact Hr.
  - exact Hb.
  - replace (m a - m b + m b) with (m a) by lia. exact Ha.
Qed.

(** The raw amount and the flag of a sum do not depend on the order of the
    operands, overflow included; the configuration is the receiver's. *)
Theorem Add_comm_Raw (c d : Currency) :
  Raw (Add c d) = Raw (Add d c) /\ Valid (Add c d) = Valid (Add d c).
Proof.
  rewrite !Add_cases.
  assert (E : Int64.add_overflows (m c) (m d) = Int64.add_overflows (m d) (m c)).
  { unfold Int64.add_overflows, Int64.add.
    now rewrite (Z.add_comm (m d) (m c)), Z.land_comm. }
  rewrite E. destruct (Int64.add_overflows (m d) (m c)).
  - split; reflexivity.
  - unfold Int64.add. rewrite (Z.add_comm (m d) (m c)). split; reflexivity.
Qed.

(** [Neg] is an involution on every [int64] amount, [MinInt64] included,
    and changes nothing but the amount. *)
Theorem Neg_involutive (c : Currency) :
  Int64.in_range (m c) -> Neg (Neg c) = c.
Proof.
  intros Hc. rewrite (Neg_set_m (Neg c)), (Neg_set_m c).
  destruct c as [cm cfmt cvalid cint cjm cjum cg cgf cdp cdpf cbuf].
  unfold set_m. cbn [m fmt Valid Interval jm jum guard guardf dp dpf bufC] in *.
  now rewrite wrap_opp_opp.
Qed.

(** Adding the negation is subtracting: above [MinInt64] for the second
    operand, [c.Add(d.Neg())] and [c.Sub(d)] have the same raw amount, on
    the overflow path as well. *)
Theorem Add_Neg_is_Sub (c d : Currency) :
  Int64.in_range (m c) -> Int64.in_range (m d) -> Int64.min_int64 < m d ->
  Raw (Add c (Neg d)) = Raw (Sub c d).
Proof.
  intros Hc Hd Hmin.
  assert (Hn : Int64.in_range (- m d))
    by (unfold Int64.in_range, Int64.min_int64, Int64.max_int64 in *; lia).
  assert (En : m (Neg d) = - m d).
  { rewrite Neg_set_m. cbn. now apply Int64Facts.wrap_small. }
  rewrite Add_cases, Sub_cases, En.
  destruct (Int64.add_overflows (m c) (- m d)) eqn:Ea;
    destruct (Int64.sub_overflows (m c) (m d)) eqn:Es.
  - reflexivity.
  - apply Int64Facts.add_overflows_spec in Ea; try assumption.
    assert (Es' : Int64.sub_overflows (m c) (m d) = true).
    { apply Int64Facts.sub_overflows_spec; assumption. }
    congruence.
  - apply Int64Facts.sub_overflows_spec in Es; try assumption.
    assert (Ea' : Int64.add_overflows (m c) (- m d) = true).
    { apply Int64Facts.add_overflows_spec; assumption. }
    congruence.
  - cbn. unfold Raw, Int64.add, Int64.sub. cbn. f_equal.
Qed.

(** Above [MinInt64] the sign and the absolute value give the amount
    back, the absolute value has the sign 1, and [Abs] of it is itself. *)
Theorem Sign_Abs_recompose (c : Currency) :
  Int64.in_range (m c) -> Int64.min_int64 < m c ->
  Sign c * Raw (Abs c) = m c /\ Sign (Abs c) = 1 /\ Abs (Abs c) = Abs c.
Proof.
  intros Hc Hmin.
  pose proof (Abs_Raw c Hc Hmin) as HA. unfold Raw in HA.
  assert (Hs : (m (Abs c) <? 0) = false) by (apply Z.ltb_ge; lia).
  split; [|split].
  - unfold Raw, Sign. rewrite HA. destruct (m c <? 0) eqn:E.
    + apply Z.ltb_lt in E. lia.
    + apply Z.ltb_ge in E. lia.
  - unfold Sign. now rewrite Hs.
  - unfold Abs at 1. now rewrite Hs.
Qed.

(** The integer part, the sign and the decimals, which are what the
    formatter receives, give the amount back: above [MinInt64] and at a
    precision other than zero, [amount = dp * Geti() + Sign() * Dec()] with
    the decimals from 0 to below [|dp|]. *)
Theorem Geti_Dec_recompose (c : Currency) :
  Int64.in_range (m c) -> Int64.min_int64 < m c -> dp c <> 0 ->
  exists i d,
    Geti c = Some i /\ Dec c = Some d /\
    m c = dp c * i + Sign c * d /\ 0 <= d < Z.abs (dp c).
Proof.
  intros Hc Hmin Hdp.
  exists (Z.quot (m c) (dp c)), (Z.rem (Z.abs (m c)) (dp c)).
  assert (Hq : Int64.in_range (Z.quot (m c) (dp c))).
  { assert (H : Z.abs (Z.quot (m c) (dp c)) <= Z.abs (m c)).
    { rewrite <- Z.quot_abs by assumption.
      apply Z.quot_le_upper_bound; [lia | nia]. }
    unfold Int64.in_range, Int64.min_int64, Int64.max_int64 in *. lia. }
  assert (Ha : Raw (Abs c) = Z.abs (m c)) by now apply Abs_Raw.
  destruct (rem_nonneg_dividend (Z.abs (m c)) (dp c)) as (Ed & Hd0).
  { unfold Int64.in_range, Int64.min_int64, Int64.max_int64 in *. lia. }
  { lia. }
  { exact Hdp. }
  unfold Dec. rewrite Ha.
  split; [|split; [exact Ed|split]].
  - unfold Geti, Int64.quo.
    destruct (dp c =? 0) eqn:E; [apply Z.eqb_eq in E; contradiction|].
    now rewrite Int64Facts.wrap_small.
  - rewrite Z.rem_abs_l by assumption.
    pose proof (Z.quot_rem' (m c) (dp c)) as Hqr.
    unfold Sign. destruct (m c <? 0) eqn:E.
    + apply Z.ltb_lt in E.
      pose proof (Z.rem_nonpos (m c) (dp c) Hdp ltac:(lia)). lia.
    + apply Z.ltb_ge in E.
      pose proof (Z.rem_nonneg (m c) (dp c) Hdp E). lia.
  - rewrite Z.rem_abs_l by assumption.
    pose proof (Z.rem_bound_abs (m c) (dp c) Hdp). lia.
Qed.

End Operators.

(** ** More on the option functions *)

Section OptionLists.

Context {P : Package}.

(** No option function touches the amount or the [Valid] flag. *)
Lemma call_frame (o : OptionFunc) (c c' : Currency) (inverse : OptionFunc) :
  call o c = Some (c', inverse) -> m c' = m c /\ Valid c' = Valid c.
Proof.
  destruct o; cbn; intros H;
    try (injection H as <- _; split; reflexivity).
  destruct (fmt c); cbn in H; [|discriminate H].
  injection H as <- _. split; reflexivity.
Qed.

Lemma Option_from_frame (opts : list (option OptionFunc)) :
  forall previous c c' previous',
    Option_from previous opts c = Some (c', previous') ->
    m c' = m c /\ Valid c' = Valid c.
Proof.
  induction opts as [| o opts IH]; intros previous c c' previous' H; cbn in H.
  - injection H as <- _. split; reflexivity.
  - destruct o as [o|]; [|exact (IH _ _ _ _ H)].
    destruct (call o c) as [[c1 inverse]|] eqn:E; [|discriminate H].
    destruct (call_frame o c c1 inverse E) as [Hm Hv].
    destruct (IH _ _ _ _ H) as [Hm' Hv'].
    split; congruence.
Qed.

Lemma Option_from_app (xs ys : list (option OptionFunc)) :
  forall previous c,
    Option_from previous (xs ++ ys) c =
    match Option_from previous xs c with
    | Some (c', previous') => Option_from previous' ys c'
    | None => None
    end.
Proof.
  induction xs as [| o xs IH]; intros previous c; cbn.
  - reflexivity.
  - destruct o as [o|]; [|apply IH].
    destruct (call o c) as [[c1 inverse]|]; [apply IH | reflexivity].
Qed.

(** The [Currency] that [Option] leaves does not depend on the inverse it
    starts from. *)
Lemma Option_from_previous (opts : list (option OptionFunc)) :
  forall p1 p2 c,
    option_map fst (Option_from p1 opts c) = option_map fst (Option_from p2 opts c).
Proof.
  induction opts as [| o opts IH]; intros p1 p2 c; cbn.
  - reflexivity.
  - destruct o as [o|]; [|apply IH].
    destruct (call o c) as [[c1 inverse]|]; reflexivity.
Qed.

Lemma call_Interval (o : OptionFunc) (c c' : Currency) (inverse : OptionFunc) :
  constructed o -> call o c = Some (c', inverse) ->
  Interval c < interval999 -> Interval c' < interval999.
Proof.
  intros Ho Hc Hi. destruct Ho; cbn in Hc.
  - injection Hc as <- _. cbn.
    destruct (interval999 <=? i) eqn:E; [reflexivity | now apply Z.leb_gt in E].
  - injection Hc as <- _. exact Hi.
  - injection Hc as <- _. exact Hi.
  - destruct (fmt c) as [f0|]; cbn in Hc; [|discriminate Hc].
    injection Hc as <- _. exact Hi.
  - injection Hc as <- _. exact Hi.
  - injection Hc as <- _. exact Hi.
Qed.

Lemma call_dp (o : OptionFunc) (c c' : Currency) (inverse : OptionFunc) :
  constructed o -> call o c = Some (c', inverse) ->
  dp c <> 0 -> dp c' <> 0.
Proof.
  intros Ho Hc Hd. destruct Ho.
  - cbn in Hc. injection Hc as <- _. exact Hd.
  - cbn in Hc. injection Hc as <- _. exact Hd.
  - destruct (Precision_stores_kept p) as (p64 & Ep & Hp & _).
    rewrite Ep in Hc. cbn [call] in Hc. injection Hc as <- _. exact Hp.
  - cbn in Hc. destruct (fmt c) as [f0|]; cbn in Hc; [|discriminate Hc].
    injection Hc as <- _. exact Hd.
  - cbn in Hc. injection Hc as <- _. exact Hd.
  - cbn in Hc. injection Hc as <- _. exact Hd.
Qed.

(** [Precision] never stores zero, whatever its argument and whatever the
    package default: zero, given or fallen back to, becomes 1. *)
Theorem Precision_never_zero (p : Z) (c : Currency) :
  exists c' inverse,
    call (Precision p) c = Some (c', inverse) /\
    dp c' <> 0 /\ dpf c' = of_int (dp c') /\ (p = 0 -> dp c' = 1).
Proof.
  destruct (Precision_stores_kept p) as (p64 & Ep & Hp & _).
  rewrite Ep. cbn [call]. eexists _, _. split; [reflexivity|].
  cbn [dp dpf set_dp]. split; [exact Hp|]. split; [reflexivity|].
  intros ->. unfold Precision in Ep. cbn in Ep. now injection Ep as <-.
Qed.

(** [New] returns for every list of options, and what it returns holds no
    amount: raw 0 and [Valid] false. *)
Theorem New_holds_no_amount (opts : list (option OptionFunc)) :
  Forall option_entry opts ->
  exists c, New opts = Some c /\ Raw c = 0 /\ Valid c = false.
Proof.
  intros Hopts. unfold New, Option.
  destruct (Option_from_invariant (fun _ => True) (fun _ _ _ _ _ _ _ => I) opts None
              New_literal Hopts I) as (c & previous & E & _ & _); [discriminate|].
  rewrite E. exists c. split; [reflexivity|].
  destruct (Option_from_frame opts None New_literal c previous E) as [Hm Hv].
  unfold Raw. rewrite Hm, Hv. split; reflexivity.
Qed.

(** Options given in two calls of [Option] act as the same options given in
    one. *)
Theorem Option_batches (c : Currency) (xs ys : list (option OptionFunc)) :
  option_map fst (Option c (xs ++ ys)) =
  match Option c xs with
  | Some (c', _) => option_map fst (Option c' ys)
  | None => None
  end.
Proof.
  unfold Option. rewrite Option_from_app.
  destruct (Option_from None xs c) as [[c' previous]|]; [|reflexivity].
  apply Option_from_previous.
Qed.

(** [Option] returns the inverse of the last option alone: the inverses of
    the options before it are dropped. *)
Theorem Option_returns_last_inverse
        (c : Currency) (opts : list (option OptionFunc)) (o : OptionFunc) :
  Option c (opts ++ [Some o]) =
  match Option c opts with
  | Some (c', _) =>
      match call o c' with
      | Some (c'', inverse) => Some (c'', Some inverse)
      | None => None
      end
  | None => None
  end.
Proof.
  unfold Option. rewrite Option_from_app.
  destruct (Option_from None opts c) as [[c' previous]|]; [|reflexivity].
  cbn. destruct (call o c') as [[c'' inverse]|]; reflexivity.
Qed.

(** An option applied a second time changes nothing. *)
Theorem option_twice_same (o : OptionFunc) (c : Currency) :
  constructed o -> fmt c <> None ->
  exists c1 inverse1 inverse2,
    call o c = Some (c1, inverse1) /\ call o c1 = Some (c1, inverse2).
Proof.
  intros Ho Hf. destruct Ho.
  - cbn. eexists _, _, _. split; reflexivity.
  - cbn. eexists _, _, _. split; reflexivity.
  - destruct (Precision_stores_kept p) as (p64 & Ep & _). rewrite Ep.
    cbn [call]. eexists _, _, _. split; reflexivity.
  - cbn. destruct (fmt c) as [f0|]; [|contradiction]. cbn.
    eexists _, _, _. split; reflexivity.
  - cbn. eexists _, _, _. split; reflexivity.
  - cbn. eexists _, _, _. split; reflexivity.
Qed.

(** [Swedish] takes an interval that is out of scope to [Interval000], so
    the interval of what [New] returns is one of the seven constants. *)
Theorem New_Interval_in_scope (opts : list (option OptionFunc)) :
  Forall option_entry opts ->
  (forall i, interval999 <= i -> Swedish i = SwedishFn Interval000) /\
  exists c, New opts = Some c /\ Interval c < interval999.
Proof.
  intros Hopts. split.
  - intros i Hi. unfold Swedish. apply Z.leb_le in Hi. now rewrite Hi.
  - unfold New, Option.
    destruct (Option_from_invariant (fun c => Interval c < interval999) call_Interval
                opts None New_literal Hopts) as (c & previous & E & Hc & _).
    + reflexivity.
    + discriminate.
    + rewrite E. exists c. auto.
Qed.

(** When the package default of the precision is not zero, no list of
    options leaves a zero precision: [Geti] and [Dec] of what [New] returns
    never divide by zero, whatever amount is set. *)
Theorem New_never_divides_by_zero (opts : list (option OptionFunc)) :
  pkg_dp <> 0 -> Forall option_entry opts ->
  exists c,
    New opts = Some c /\ dp c <> 0 /\
    forall raw, Geti (Set_ c raw) <> None /\ Dec (Set_ c raw) <> None.
Proof.
  intros Hp Hopts. unfold New, Option.
  destruct (Option_from_invariant (fun c => dp c <> 0) call_dp
              opts None New_literal Hopts Hp) as (c & previous & E & Hc & _);
    [discriminate|].
  rewrite E. exists c. split; [reflexivity|]. split; [exact Hc|].
  intros raw. apply Z.eqb_neq in Hc.
  unfold Geti, Dec, Int64.quo, Int64.rem. cbn [dp Set_ set_Valid set_m].
  rewrite Hc. split; discriminate.
Qed.

End OptionLists.

(** ** Invariants of the methods *)

Section Invariants.

Context {P : Package}.

Lemma min_int64_in_range : Int64.in_range Int64.min_int64.
Proof. apply Int64Facts.in_rangeb_spec. vm_compute. reflexivity. Qed.

Lemma to_int64_in_range (x : float64) : Int64.in_range (to_int64 x).
Proof.
  unfold to_int64. destruct (trunc x) as [z|]; [|apply min_int64_in_range].
  destruct (Int64.in_rangeb z) eqn:E; [|apply min_int64_in_range].
  now apply Int64Facts.in_rangeb_spec.
Qed.

Lemma rnd_in_range (r : Z) (t : float64) :
  Int64.in_range r -> Int64.in_range (rnd r t).
Proof.
  intros Hr. unfold rnd, Int64.add, Int64.sub.
  destruct (ltb (of_int 0) t).
  - destruct (leb RoundTo t); [apply Int64Facts.wrap_in_range | exact Hr].
  - destruct (ltb t RoundToN); [apply Int64Facts.wrap_in_range | exact Hr].
Qed.

(** [rnd] moves the integer result by one at most, and stays in [int64]. *)
Theorem rnd_moves_at_most_one (r : Z) (t : float64) :
  Int64.in_range r ->
  Int64.in_range (rnd r t) /\
  (Int64.min_int64 < r < Int64.max_int64 -> r - 1 <= rnd r t <= r + 1).
Proof.
  intros Hr. split; [now apply rnd_in_range|]. intros Hin.
  assert (Hup : Int64.add r 1 = r + 1).
  { apply Int64Facts.wrap_small.
    unfold Int64.in_range, Int64.min_int64, Int64.max_int64 in *. lia. }
  assert (Hdown : Int64.sub r 1 = r - 1).
  { apply Int64Facts.wrap_small.
    unfold Int64.in_range, Int64.min_int64, Int64.max_int64 in *. lia. }
  unfold rnd. rewrite Hup, Hdown.
  destruct (ltb (of_int 0) t).
  - destruct (leb RoundTo t); lia.
  - destruct (ltb t RoundToN); lia.
Qed.

Lemma same_config_refl (c : Currency) : same_config c c.
Proof. unfold same_config. repeat split. Qed.

Lemma same_config_set_m (c : Currency) (x : Z) : same_config c (set_m c x).
Proof. unfold same_config. cbn. repeat split. Qed.

Lemma same_config_Set (c : Currency) (x : Z) : same_config c (Set_ c x).
Proof. unfold same_config. cbn. repeat split. Qed.

(** The methods hand the configuration of the receiver on: precision,
    guard, interval, formatter and codecs. [Add] and [Sub] do so exactly
    when the exact sum or difference fits [int64]; when it does not they
    return [New()], which has the package defaults. *)
Theorem configuration_is_carried (c d : Currency) :
  Int64.in_range (m c) -> Int64.in_range (m d) ->
  same_config c (Neg c) /\
  same_config c (Abs c) /\
  (forall i, same_config c (Set_ c i)) /\
  (forall f, same_config c (Setf c f)) /\
  same_config c (Div c d) /\
  (Int64.in_range (m c + m d) -> same_config c (Add c d)) /\
  (~ Int64.in_range (m c + m d) -> Add c d = New_literal) /\
  (Int64.in_range (m c - m d) -> same_config c (Sub c d)) /\
  (~ Int64.in_range (m c - m d) -> Sub c d = New_literal) /\
  (forall c', Mul c d = Some c' -> same_config c c') /\
  (forall f c', Mulf c f = Some c' -> same_config c c').
Proof.
  intros Hc Hd.
  assert (HN : same_config c (Neg c))
    by (rewrite Neg_set_m; apply same_config_set_m).
  split; [exact HN|].
  split; [|split; [|split; [|split; [|split; [|split; [|split; [|split; [|split]]]]]]]].
  - unfold Abs. destruct (m c <? 0); [exact HN | apply same_config_refl].
  - intros i. apply same_config_Set.
  - intros f. unfold Setf, Set_, same_config.
    cbn [fmt Interval jm jum guard guardf dp dpf bufC set_m set_Valid].
    repeat split.
  - unfold Div. apply same_config_Set.
  - intros Hr. rewrite (Add_no_overflow c d Hc Hd Hr). apply (same_config_Set c).
  - intros Hr. rewrite Add_cases.
    assert (E : Int64.add_overflows (m c) (m d) = true)
      by now apply Int64Facts.add_overflows_spec.
    now rewrite E.
  - intros Hr. rewrite (Sub_no_overflow c d Hc Hd Hr). apply same_config_set_m.
  - intros Hr. rewrite Sub_cases.
    assert (E : Int64.sub_overflows (m c) (m d) = true)
      by now apply Int64Facts.sub_overflows_spec.
    now rewrite E.
  - intros c'. unfold Mul.
    destruct (Int64.quo (Int64.mul (m c) (m d)) (dp c)) as [q|]; [|discriminate].
    intros H. injection H as <-. apply same_config_Set.
  - intros f c'. unfold Mulf.
    destruct (Int64.quo _ (guard c)) as [q|]; [|discriminate].
    destruct (Int64.quo q (dp c)) as [r|]; [|discriminate].
    intros H. injection H as <-. apply same_config_Set.
Qed.

(** Multiplying by the unit, the amount whose raw value is the precision,
    gives the amount back when [m * dp] fits [int64]; at a precision of zero
    [Mul] divides by zero. *)
Theorem Mul_by_unit (c d : Currency) :
  Int64.in_range (m c) -> m d = dp c -> Int64.in_range (m c * dp c) ->
  (dp c <> 0 ->
   exists c', Mul c d = Some c' /\ Raw c' = m c /\ Valid c' = true) /\
  (dp c = 0 -> Mul c d = None).
Proof.
  intros Hc Hd Hr. unfold Mul, Int64.quo, Int64.mul. rewrite Hd. split.
  - intros Hdp. apply Z.eqb_neq in Hdp as Hdp'. rewrite Hdp'.
    eexists. split; [reflexivity|]. cbn. split; [|reflexivity].
    unfold Raw. cbn.
    rewrite (Int64Facts.wrap_small _ Hr), Z.quot_mul by assumption.
    now apply Int64Facts.wrap_small.
  - intros ->. reflexivity.
Qed.

End Invariants.

(** ** Float conversion and Swedish rounding on a range of amounts

    The statements of this part are checked by evaluation, amount by
    amount, and hold on the range they name. *)

Section Ranges.

Context {P : Package}.

Lemma Z_range_forallb (f : Z -> bool) (lo : Z) (n : nat) :
  forallb f (Z_range lo n) = true ->
  forall z, lo <= z < lo + Z.of_nat n -> f z = true.
Proof.
  intros H z Hz. rewrite forallb_forall in H. apply H.
  unfold Z_range. apply in_map_iff. exists (Z.to_nat (z - lo)). split.
  - lia.
  - apply in_seq. lia.
Qed.

(** Up to 1100 the float logarithm and the real one have the same
    integer part. *)
Lemma Log_int64_is_ln_floor (p : Z) :
  1 <= p <= 1100 -> Ln.Log_int64 p = Ln.ln_floor p.
Proof.
  intros Hp. apply Z.eqb_eq.
  apply (Z_range_forallb (fun p => Ln.Log_int64 p =? Ln.ln_floor p)
                         1 (Z.to_nat 1100)); [|lia].
  vm_compute. reflexivity.
Qed.

Lemma nearest_multiple_true (step raw : Z) (r : option Z) :
  nearest_multiple step raw r = true ->
  exists x, r = Some x /\ Z.rem x step = 0 /\ 2 * Z.abs (x - raw) <= step.
Proof.
  unfold nearest_multiple. destruct r as [x|]; [|discriminate].
  intros H. apply andb_true_iff in H as [H1 H2].
  apply Z.eqb_eq in H1. apply Z.leb_le in H2. exists x. auto.
Qed.

Lemma option_Z_eqb_true (a b : option Z) :
  option_Z_eqb a b = true -> exists x, a = Some x /\ b = Some x.
Proof.
  unfold option_Z_eqb. destruct a as [x|]; [|discriminate].
  destruct b as [y|]; [|discriminate].
  intros H. apply Z.eqb_eq in H. subst y. exists x. auto.
Qed.

Lemma Getf_Setf_checked (c : Currency) (p raw : Z) :
  In p [1; 10; 100; 1000; 10000] -> dpf c = of_int p ->
  -1000 <= raw <= 1000 -> Getf_Setf_gives c raw = true.
Proof.
  destruct c as [cm cfmt cvalid cint cjm cjum cg cgf cdp cdpf cbuf].
  cbn [dpf]. intros Hp -> Hraw.
  apply (Z_range_forallb
           (Getf_Setf_gives
              (mkCurrency cm cfmt cvalid cint cjm cjum cg cgf cdp (of_int p) cbuf))
           (-1000) (Z.to_nat 2001)); [|lia].
  destruct Hp as [<- | [<- | [<- | [<- | [<- | []]]]]]; vm_compute; reflexivity.
Qed.

Lemma Swedish_nearest_checked (c : Currency) (raw : Z) :
  dpf c = of_int 100 -> -500 <= raw <= 500 -> Swedish_nearest c raw = true.
Proof.
  destruct c as [cm cfmt cvalid cint cjm cjum cg cgf cdp cdpf cbuf].
  cbn [dpf]. intros -> Hraw.
  apply (Z_range_forallb
           (Swedish_nearest
              (mkCurrency cm cfmt cvalid cint cjm cjum cg cgf cdp (of_int 100) cbuf))
           (-500) (Z.to_nat 1001)); [|lia].
  vm_compute. reflexivity.
Qed.

Lemma Swedish_idempotent_checked (c : Currency) (raw : Z) :
  dpf c = of_int 100 -> -500 <= raw <= 500 -> Swedish_idempotent c raw = true.
Proof.
  destruct c as [cm cfmt cvalid cint cjm cjum cg cgf cdp cdpf cbuf].
  cbn [dpf]. intros -> Hraw.
  apply (Z_range_forallb
           (Swedish_idempotent
              (mkCurrency cm cfmt cvalid cint cjm cjum cg cgf cdp (of_int 100) cbuf))
           (-500) (Z.to_nat 1001)); [|lia].
  vm_compute. reflexivity.
Qed.

Lemma Interval015_vs_010_checked (c : Currency) (raw : Z) :
  dpf c = of_int 100 -> -500 <= raw <= 500 -> Interval015_vs_010 c raw = true.
Proof.
  destruct c as [cm cfmt cvalid cint cjm cjum cg cgf cdp cdpf cbuf].
  cbn [dpf]. intros -> Hraw.
  apply (Z_range_forallb
           (Interval015_vs_010
              (mkCurrency cm cfmt cvalid cint cjm cjum cg cgf cdp (of_int 100) cbuf))
           (-500) (Z.to_nat 1001)); [|lia].
  vm_compute. reflexivity.
Qed.

(** At a precision of 1, 10, 100, 1000 or 10000, an amount from -1000 to
    1000 read with [Getf] and set again with [Setf] is the same amount:
    the division and the product by [dpf] lose nothing that [rnd] does not
    recover. *)
Theorem Getf_Setf_round_trip (c : Currency) (p raw : Z) :
  In p [1; 10; 100; 1000; 10000] -> dpf c = of_int p ->
  -1000 <= raw <= 1000 ->
  Raw (Setf c (Getf (Set_ c raw))) = raw /\
  Valid (Setf c (Getf (Set_ c raw))) = true.
Proof.
  intros Hp Hd Hraw.
  pose proof (Getf_Setf_checked c p raw Hp Hd Hraw) as H.
  unfold Getf_Setf_gives in H. apply Z.eqb_eq in H.
  split; [exact H | reflexivity].
Qed.

(** At two decimal places, for an amount from -5.00 to 5.00, each
    interval gives a multiple of its step (5, 10, 10, 25, 50 and 100 in raw
    units) that is no further than half a step from the amount. *)
Theorem Swedish_gives_nearest_multiple (c : Currency) (raw : Z) :
  dpf c = of_int 100 -> -500 <= raw <= 500 ->
  forall i step,
    In (i, step)
       [(Interval005, 5); (Interval010, 10); (Interval015, 10);
        (Interval025, 25); (Interval050, 50); (Interval100, 100)] ->
    exists r,
      Swedish_of c i raw = Some r /\
      Z.rem r step = 0 /\ 2 * Z.abs (r - raw) <= step.
Proof.
  intros Hd Hraw i step Hi.
  pose proof (Swedish_nearest_checked c raw Hd Hraw) as H.
  unfold Swedish_nearest in H.
  do 5 (apply andb_true_iff in H as [H ?]).
  destruct Hi as [E | [E | [E | [E | [E | [E | []]]]]]];
    injection E as <- <-; now apply nearest_multiple_true.
Qed.

(** At two decimal places, for an amount from -5.00 to 5.00, rounding a
    rounded amount again with the same interval changes nothing. *)
Theorem Swedish_rounding_idempotent (c : Currency) (raw : Z) (i : Interval_t) :
  dpf c = of_int 100 -> -500 <= raw <= 500 ->
  Interval000 <= i < interval999 ->
  exists r, Swedish_of c i raw = Some r /\ Swedish_of c i r = Some r.
Proof.
  intros Hd Hraw Hi.
  pose proof (Swedish_idempotent_checked c raw Hd Hraw) as H.
  unfold Swedish_idempotent in H. rewrite forallb_forall in H.
  assert (Hin : In i [Interval000; Interval005; Interval010; Interval015;
                      Interval025; Interval050; Interval100]).
  { unfold Interval000, interval999 in Hi.
    assert (i = 0 \/ i = 1 \/ i = 2 \/ i = 3 \/ i = 4 \/ i = 5 \/ i = 6)
      as [-> | [-> | [-> | [-> | [-> | [-> | ->]]]]]] by lia;
      cbn; auto 10. }
  specialize (H i Hin). unfold Swedish_twice_same in H.
  destruct (Swedish_of c i raw) as [r|]; [|discriminate H].
  exists r. split; [reflexivity|].
  destruct (option_Z_eqb_true _ _ H) as (x & E1 & E2).
  injection E2 as <-. exact E1.
Qed.

(** At two decimal places, for an amount from -5.00 to 5.00:
    [Interval015] and [Interval010] part exactly on the amounts that end in
    5, which [Interval015] takes five down and [Interval010] five up, and
    give the same amount everywhere else. *)
Theorem Interval015_rounds_5_down (c : Currency) (raw : Z) :
  dpf c = of_int 100 -> -500 <= raw <= 500 ->
  (Z.abs (Z.rem raw 10) = 5 ->
   Swedish_of c Interval015 raw = Some (raw - 5) /\
   Swedish_of c Interval010 raw = Some (raw + 5)) /\
  (Z.abs (Z.rem raw 10) <> 5 ->
   exists r, Swedish_of c Interval015 raw = Some r /\
             Swedish_of c Interval010 raw = Some r).
Proof.
  intros Hd Hraw.
  pose proof (Interval015_vs_010_checked c raw Hd Hraw) as H.
  unfold Interval015_vs_010 in H. split; intros E.
  - apply Z.eqb_eq in E. rewrite E in H.
    apply andb_true_iff in H as [H1 H2].
    destruct (option_Z_eqb_true _ _ H1) as (x & E1 & E2).
    destruct (option_Z_eqb_true _ _ H2) as (y & E3 & E4).
    injection E2 as <-. injection E4 as <-. auto.
  - apply Z.eqb_neq in E. rewrite E in H.
    destruct (option_Z_eqb_true _ _ H) as (x & E1 & E2). exists x. auto.
Qed.

(** The precisions at the integer parts of [e^33] and [e^34]: the float
    logarithm is 33 at the first, an odd number, and [Precision] falls back
    to the package default; it is 34 at the second, which is stored as it
    is given. *)
Lemma Precision_at_exp_33_and_34 :
  Precision 214643579785916 = PrecisionFn (if pkg_dp =? 0 then 1 else pkg_dp) /\
  Precision 583461742527454 = PrecisionFn 583461742527454 /\
  precision_kept 583461742527454.
Proof.
  unfold Precision, precision_kept.
  replace (Ln.Log_int64 214643579785916) with 33 by (vm_compute; reflexivity).
  replace (Ln.Log_int64 583461742527454) with 34 by (vm_compute; reflexivity).
  split; [reflexivity|]. split; [reflexivity|]. split; [lia | now right].
Qed.

End Ranges.

(** ** The further statements on the instance [Shop] *)

Lemma Sub_overflow_returns_New_witness :
  let c := Set_ Shop.money Int64.min_int64 in
  let d := Set_ Shop.money 1 in
  ~ Int64.in_range (m c - m d) /\ Sub c d = New_literal.
Proof.
  intros c d.
  assert (Hc : Int64.in_range (m c)) by in_int64.
  assert (Hd : Int64.in_range (m d)) by in_int64.
  assert (Hs : ~ Int64.in_range (m c - m d)) by not_in_int64.
  split; [exact Hs | exact (proj1 (Sub_overflow_returns_New c d Hc Hd Hs))].
Defined.

Lemma Sub_Add_Raw_witness :
  let a := Set_ Shop.money 150 in
  let b := Set_ Shop.money 275 in
  Raw (Add (Sub a b) b) = Raw a.
Proof.
  intros a b. apply (Sub_Add_Raw a b); in_int64.
Defined.

Lemma Neg_involutive_witness :
  let c := Set_ Shop.money Int64.min_int64 in Neg (Neg c) = c.
Proof.
  intros c. apply (Neg_involutive c). in_int64.
Defined.

Lemma Add_Neg_is_Sub_witness :
  let c := Set_ Shop.money 150 in
  let d := Set_ Shop.money 275 in
  Raw (Add c (Neg d)) = Raw (Sub c d).
Proof.
  intros c d. apply (Add_Neg_is_Sub c d); [in_int64 | in_int64 |].
  vm_compute. reflexivity.
Defined.

Lemma Sign_Abs_recompose_witness :
  let c := Set_ Shop.money (-250) in Sign c * Raw (Abs c) = m c.
Proof.
  intros c. apply (Sign_Abs_recompose c); [in_int64|].
  vm_compute. reflexivity.
Defined.

Lemma Geti_Dec_recompose_witness :
  let c := Set_ Shop.cents (-1234) in
  exists i d,
    Geti c = Some i /\ Dec c = Some d /\
    m c = dp c * i + Sign c * d /\ 0 <= d < Z.abs (dp c).
Proof.
  intros c. apply (Geti_Dec_recompose c); [in_int64 | |].
  - vm_compute. reflexivity.
  - vm_compute. discriminate.
Defined.

Lemma Precision_never_zero_witness :
  exists c' inverse,
    call (Precision 0) Shop.money = Some (c', inverse) /\ dp c' = 1.
Proof.
  destruct (Precision_never_zero 0 Shop.money) as (c' & inverse & E & _ & _ & H).
  exists c', inverse. split; [exact E | exact (H eq_refl)].
Defined.

Lemma New_holds_no_amount_witness :
  exists c,
    @New Shop.package [Some (Precision 100); None; Some (Swedish Interval005)]
    = Some c /\ Raw c = 0 /\ Valid c = false.
Proof.
  apply (@New_holds_no_amount Shop.package). repeat constructor.
Defined.

Lemma option_twice_same_witness :
  exists c1 inverse1 inverse2,
    call (Guard 7) Shop.money = Some (c1, inverse1) /\
    call (Guard 7) c1 = Some (c1, inverse2).
Proof.
  apply (option_twice_same (Guard 7) Shop.money).
  - constructor.
  - vm_compute. discriminate.
Defined.

Lemma New_Interval_in_scope_witness :
  exists c, @New Shop.package [Some (Swedish 200)] = Some c /\
            Interval c < interval999.
Proof.
  apply (@New_Interval_in_scope Shop.package). repeat constructor.
Defined.

Lemma New_never_divides_by_zero_witness :
  exists c,
    @New Shop.package [Some (Precision 0)] = Some c /\ dp c <> 0 /\
    forall raw, Geti (Set_ c raw) <> None /\ Dec (Set_ c raw) <> None.
Proof.
  apply (@New_never_divides_by_zero Shop.package).
  - vm_compute. discriminate.
  - repeat constructor.
Defined.

Lemma rnd_moves_at_most_one_witness :
  7 - 1 <= rnd 7 (dyadic 3 (-2)) <= 7 + 1.
Proof.
  apply (rnd_moves_at_most_one 7 (dyadic 3 (-2))); [in_int64|].
  vm_compute. split; reflexivity.
Defined.

(** At two decimal places: a sum that fits keeps the precision of the
    receiver, a sum that overflows comes back with the package default. *)
Lemma configuration_is_carried_witness :
  let c := Set_ Shop.cents Int64.max_int64 in
  same_config c (Add c (Set_ Shop.cents (-1))) /\
  Add c (Set_ Shop.cents 1) = New_literal /\
  dp c = 100 /\ dp (Add c (Set_ Shop.cents 1)) = 10000.
Proof.
  intros c.
  assert (Hc : Int64.in_range (m c)) by in_int64.
  assert (H1 : Int64.in_range (m (Set_ Shop.cents (-1)))) by in_int64.
  assert (H2 : Int64.in_range (m (Set_ Shop.cents 1))) by in_int64.
  destruct (configuration_is_carried c (Set_ Shop.cents (-1)) Hc H1)
    as (_ & _ & _ & _ & _ & Hfit & _).
  destruct (configuration_is_carried c (Set_ Shop.cents 1) Hc H2)
    as (_ & _ & _ & _ & _ & _ & Hover & _).
  assert (E : Add c (Set_ Shop.cents 1) = New_literal)
    by (apply Hover; not_in_int64).
  split; [apply Hfit; in_int64|]. split; [exact E|].
  split; [reflexivity|]. rewrite E. reflexivity.
Defined.

Lemma Mul_by_unit_witness :
  let c := Set_ Shop.cents 1234 in
  let d := Set_ Shop.cents 100 in
  exists c', Mul c d = Some c' /\ Raw c' = m c /\ Valid c' = true.
Proof.
  intros c d. apply (Mul_by_unit c d); [in_int64 | reflexivity | in_int64 |].
  vm_compute. discriminate.
Defined.

Lemma Getf_Setf_round_trip_witness :
  Raw (Setf Shop.cents (Getf (Set_ Shop.cents (-999)))) = -999.
Proof.
  apply (Getf_Setf_round_trip Shop.cents 100 (-999)).
  - cbn. auto.
  - vm_compute. reflexivity.
  - lia.
Defined.

Lemma Swedish_gives_nearest_multiple_witness :
  exists r,
    Swedish_of Shop.cents Interval025 (-137) = Some r /\
    Z.rem r 25 = 0 /\ 2 * Z.abs (r - -137) <= 25.
Proof.
  apply (Swedish_gives_nearest_multiple Shop.cents (-137)).
  - vm_compute. reflexivity.
  - lia.
  - cbn. auto.
Defined.

Lemma Swedish_rounding_idempotent_witness :
  exists r,
    Swedish_of Shop.cents Interval015 45 = Some r /\
    Swedish_of Shop.cents Interval015 r = Some r.
Proof.
  apply (Swedish_rounding_idempotent Shop.cents 45 Interval015).
  - vm_compute. reflexivity.
  - lia.
  - unfold Interval000, Interval015, interval999. lia.
Defined.

Lemma Interval015_rounds_5_down_witness :
  Swedish_of Shop.cents Interval015 (-45) = Some (-45 - 5) /\
  Swedish_of Shop.cents Interval010 (-45) = Some (-45 + 5).
Proof.
  apply (Interval015_rounds_5_down Shop.cents (-45)).
  - vm_compute. reflexivity.
  - lia.
  - reflexivity.
Defined.
